(** * docshelf: the DynamoDB document coordinator (dynamo/doc.go)

    A shallow embedding of [GetDoc], [ListDocs], [PutDoc], [TagDoc] and
    [RemoveDoc] of package [dynamo], over an explicit model of the three
    backing services (DynamoDB tables, the file store, the text index),
    followed by the properties of the design document that concern them. *)

From stdpp Require Import gmap strings list fin_maps.
From Stdlib Require Import ZArith.

Local Open Scope string_scope.
Local Open Scope list_scope.

(** ** Errors *)

(** Go's [error] values as the coordinator builds and inspects them:
    [errors.New], [errors.Wrap]/[errors.Wrapf] from pkg/errors, docshelf's
    does-not-exist error, and a native failure of a backing service. *)
Inductive error : Type :=
| ErrDoesNotExist (msg : string)
| ErrStore (msg : string)
| ErrNew (msg : string)
| ErrWrap (cause : error) (msg : string).

#[global] Instance error_eq_dec : EqDecision error.
Proof. solve_decision. Defined.

(** A Go result pair [(value, error)]: [Ok] is a nil error. *)
Inductive Result (A : Type) : Type :=
| Ok (a : A)
| Err (e : error).
Arguments Ok {A} a.
Arguments Err {A} e.

(** The chain of errors an error reports: itself and, through
    [errors.Wrap], every cause below it. *)
Fixpoint chain (e : error) : list error :=
  match e with
  | ErrWrap cause _ => e :: chain cause
  | _ => [e]
  end.

Definition reports (e cause : error) : bool := bool_decide (cause ∈ chain e).

(** Modelled from the spec: [docshelf.CheckDoesNotExist] is declared in the
    root package, outside this source tree. Section 7 names one [NotFound]
    kind of failure (missing document, tag or content) that existence checks
    recognise; every other error is a fault. *)
Definition CheckDoesNotExist (e : error) : bool :=
  match e with
  | ErrDoesNotExist _ => true
  | _ => false
  end.

(** ** Data *)

(** A Go slice: [None] is the nil slice, [Some []] an empty slice that is
    not nil. [listTaggedDocs] tells them apart. *)
Definition slice (A : Type) : Type := option (list A).

Definition elems {A} (s : slice A) : list A := default [] s.

Definition is_nil {A} (s : slice A) : bool :=
  match s with None => true | Some _ => false end.

(** [append(s, x)]: the result is never nil. *)
Definition append {A} (s : slice A) (x : A) : slice A := Some (elems s ++ [x]).

(** Modelled from the spec: [docshelf.Doc] is declared in the root package.
    Section 3 gives a document its [path], [content], [createdAt] and
    [updatedAt]; a [time.Time] is an integer instant, 0 the zero time. *)
Record Doc : Type := mkDoc {
  Path : string;
  Content : string;
  CreatedAt : Z;
  UpdatedAt : Z
}.

(** [type Tag struct { Tag string; Paths []string }] *)
Record Tag : Type := mkTag {
  TagName : string;
  Paths : slice string
}.

Definition set_CreatedAt (t : Z) (d : Doc) : Doc :=
  mkDoc (Path d) (Content d) t (UpdatedAt d).
Definition set_UpdatedAt (t : Z) (d : Doc) : Doc :=
  mkDoc (Path d) (Content d) (CreatedAt d) t.
Definition set_Content (c : string) (d : Doc) : Doc :=
  mkDoc (Path d) c (CreatedAt d) (UpdatedAt d).
Definition set_TagName (n : string) (t : Tag) : Tag := mkTag n (Paths t).
Definition set_Paths (ps : slice string) (t : Tag) : Tag := mkTag (TagName t) ps.

(** ** The backing services *)

(** What a [Store] value reaches through [s.client], [s.fs]: the document
    table and the tag table of DynamoDB, each keyed by its key attribute,
    and the blobs of the file store keyed by path. [ticks] counts the
    readings of [time.Now] taken so far. *)
Record World : Type := mkWorld {
  docTable : gmap string Doc;
  tagTable : gmap string Tag;
  fs : gmap string string;
  ticks : nat
}.

Definition set_docTable (m : gmap string Doc) (w : World) : World :=
  mkWorld m (tagTable w) (fs w) (ticks w).
Definition set_tagTable (m : gmap string Tag) (w : World) : World :=
  mkWorld (docTable w) m (fs w) (ticks w).
Definition set_fs (m : gmap string string) (w : World) : World :=
  mkWorld (docTable w) (tagTable w) m (ticks w).
Definition tick (w : World) : World :=
  mkWorld (docTable w) (tagTable w) (fs w) (S (ticks w)).

Inductive table : Type := DocT | TagT.

(** The calls that leave the coordinator. A backing service may refuse any
    of them. *)
Inductive op : Type :=
| OpGetItem (t : table) (key : string)
| OpPutItem (t : table) (key : string)
| OpDeleteItem (t : table) (key : string)
| OpReadFile (path : string)
| OpWriteFile (path : string)
| OpRemoveFile (path : string)
| OpMarshalMap
| OpMakeKey.

(** What a call of the coordinator cannot control: the wall clock
    ([clock n] is the [n]-th reading of [time.Now]), the text index
    ([s.ti.Search]) and which calls to the services fail, with the native
    error message. One [Env] describes the services during one call of the
    coordinator; two calls may meet different ones. *)
Record Env : Type := mkEnv {
  clock : nat → Z;
  ti_Search : string → Result (list string);
  fault : op → option string
}.

(** Code that returns [(A, error)] and acts on the services. A failing
    step keeps the effects of the steps before it. *)
Definition M (A : Type) : Type := World → Result A * World.

Definition ret {A} (a : A) : M A := λ w, (Ok a, w).
Definition throw {A} (e : error) : M A := λ w, (Err e, w).
Definition bind {A B} (m : M A) (k : A → M B) : M B :=
  λ w, match m w with
       | (Ok a, w') => k a w'
       | (Err e, w') => (Err e, w')
       end.
(** [if err != nil { return errors.Wrap(err, msg) }] *)
Definition wrap {A} (msg : string) (m : M A) : M A :=
  λ w, match m w with
       | (Ok a, w') => (Ok a, w')
       | (Err e, w') => (Err (ErrWrap e msg), w')
       end.
(** A step that only reads. *)
Definition lift {A} (f : World → Result A) : M A := λ w, (f w, w).

Notation "'let*' x ':=' m 'in' k" := (bind m (λ x, k))
  (at level 10, x name, m at level 100, k at level 200).

(** Modelled from the spec: [contains] is a helper of package [dynamo]
    outside this source tree; section 4.1 uses it as the test that a path
    is already present in a path set. *)
Fixpoint contains (s : list string) (x : string) : bool :=
  match s with
  | [] => false
  | y :: s' => if decide (y = x) then true else contains s' x
  end.

Section Coordinator.

Variable env : Env.

(** Modelled from the spec: [intersect] is a helper of package [dynamo]
    outside this source tree. Section 4.2 says only that it intersects two
    path sequences; whether an empty result is a nil slice is left open,
    so every intersection function is allowed. *)
Variable intersect : slice string → slice string → slice string.

Definition time_Now : M Z := λ w, (Ok (clock env (ticks w)), tick w).

(** Modelled from the spec: [getItem] is a helper of package [dynamo]
    outside this source tree. Section 6: [GetItem(table, keyName,
    keyValue, &outRecord) → error[NotFound]]; section 4.1: "if absent,
    fails with NotFound". *)
Definition getItem_doc (w : World) (path : string) : Result Doc :=
  match fault env (OpGetItem DocT path) with
  | Some m => Err (ErrStore m)
  | None =>
      match docTable w !! path with
      | Some d => Ok d
      | None => Err (ErrDoesNotExist "item does not exist")
      end
  end.

Definition getItem_tag (w : World) (t : string) : Result Tag :=
  match fault env (OpGetItem TagT t) with
  | Some m => Err (ErrStore m)
  | None =>
      match tagTable w !! t with
      | Some r => Ok r
      | None => Err (ErrDoesNotExist "item does not exist")
      end
  end.

(** Modelled from the spec: the file store [s.fs] is an interface of the
    root package. Section 6: [ReadFile(path) → bytes, error[NotFound]];
    [WriteFile(path, bytes) → error]; [RemoveFile(path) →
    error[NotFound]]. *)
Definition fs_ReadFile (w : World) (path : string) : Result string :=
  match fault env (OpReadFile path) with
  | Some m => Err (ErrStore m)
  | None =>
      match fs w !! path with
      | Some c => Ok c
      | None => Err (ErrDoesNotExist "file does not exist")
      end
  end.

Definition fs_WriteFile (path content : string) : M unit :=
  λ w, match fault env (OpWriteFile path) with
       | Some m => (Err (ErrStore m), w)
       | None => (Ok tt, set_fs (<[path := content]> (fs w)) w)
       end.

Definition fs_RemoveFile (path : string) : M unit :=
  λ w, match fault env (OpRemoveFile path) with
       | Some m => (Err (ErrStore m), w)
       | None =>
           match fs w !! path with
           | Some _ => (Ok tt, set_fs (delete path (fs w)) w)
           | None => (Err (ErrDoesNotExist "file does not exist"), w)
           end
       end.

(** [dyna.MarshalMap(&v)] *)
Definition MarshalMap {A} (v : A) : M A :=
  λ w, match fault env OpMarshalMap with
       | Some m => (Err (ErrStore m), w)
       | None => (Ok v, w)
       end.

(** [makeKey("path", path)] *)
Definition makeKey (path : string) : M string :=
  λ w, match fault env OpMakeKey with
       | Some m => (Err (ErrStore m), w)
       | None => (Ok path, w)
       end.

(** [s.client.PutItemRequest(&input).Send()] on the document table: the
    item replaces the one under its key attribute [path]. *)
Definition PutItem_doc (item : Doc) : M unit :=
  λ w, match fault env (OpPutItem DocT (Path item)) with
       | Some m => (Err (ErrStore m), w)
       | None => (Ok tt, set_docTable (<[Path item := item]> (docTable w)) w)
       end.

(** The same on the tag table, key attribute [tag]. *)
Definition PutItem_tag (item : Tag) : M unit :=
  λ w, match fault env (OpPutItem TagT (TagName item)) with
       | Some m => (Err (ErrStore m), w)
       | None => (Ok tt, set_tagTable (<[TagName item := item]> (tagTable w)) w)
       end.

(** [s.client.DeleteItemRequest(&input).Send()] on the document table;
    deleting an absent key is not an error. *)
Definition DeleteItem_doc (key : string) : M unit :=
  λ w, match fault env (OpDeleteItem DocT key) with
       | Some m => (Err (ErrStore m), w)
       | None => (Ok tt, set_docTable (delete key (docTable w)) w)
       end.

(** ** The coordinator *)

(** [func (s Store) GetDoc(ctx, path) (docshelf.Doc, error)] *)
Definition GetDoc (w : World) (path : string) : Result Doc :=
  match getItem_doc w path with
  | Err err => Err err
  | Ok doc =>
      match fs_ReadFile w path with
      | Err err => Err err
      | Ok content => Ok (set_Content content doc)
      end
  end.

(** [func (s Store) listDocs(ctx, paths) ([]docshelf.Doc, error)] *)
Fixpoint listDocs (w : World) (paths : list string) : Result (list Doc) :=
  match paths with
  | [] => Ok []
  | path :: rest =>
      match getItem_doc w path with
      | Err err => Err err
      | Ok doc =>
          match listDocs w rest with
          | Err err => Err err
          | Ok docs => Ok (doc :: docs)
          end
      end
  end.

(** The first loop of [listTaggedDocs]: [paths] is the accumulator,
    nil before the first tag. *)
Fixpoint tagPaths (w : World) (tags : list string) (paths : slice string)
  : Result (slice string) :=
  match tags with
  | [] => Ok paths
  | t :: rest =>
      match getItem_tag w t with
      | Err err => Err err
      | Ok tag =>
          tagPaths w rest
            (if is_nil paths then Paths tag else intersect paths (Paths tag))
      end
  end.

(** [func (s Store) listTaggedDocs(ctx, tags) ([]docshelf.Doc, error)];
    its second loop is the loop of [listDocs] over the paths found. *)
Definition listTaggedDocs (w : World) (tags : list string) : Result (list Doc) :=
  match tagPaths w tags None with
  | Err err => Err err
  | Ok paths => listDocs w (elems paths)
  end.

(** [func (s Store) ListDocs(ctx, query, tags...) ([]docshelf.Doc, error)] *)
Definition ListDocs (w : World) (query : string) (tags : list string)
  : Result (list Doc) :=
  match (if decide (query ≠ "") then ti_Search env query else Ok []) with
  | Err err => Err err
  | Ok foundPaths =>
      if decide (length tags = 0%nat) then listDocs w foundPaths
      else
        match listTaggedDocs w tags with
        | Err err => Err err
        | Ok tagged =>
            if decide (query = "") then Ok tagged
            else if decide (0 < length foundPaths)%nat
                 then Ok (filter (λ doc, contains foundPaths (Path doc) = true) tagged)
                 else Ok []
        end
  end.

(** The existence check of [PutDoc]: a document that is not there yet
    gets its creation time; any other failure of [GetDoc] aborts. *)
Definition stampCreated (doc : Doc) : M Doc :=
  λ w, match GetDoc w (Path doc) with
       | Err err =>
           if negb (CheckDoesNotExist err)
           then (Err (ErrWrap err "could not verify existing file"), w)
           else (let* now := time_Now in ret (set_CreatedAt now doc)) w
       | Ok _ => (Ok doc, w)
       end.

(** The metadata write of [PutDoc] with its rollback of the file store. *)
Definition putOrRollback (doc marshaled : Doc) : M unit :=
  λ w, match PutItem_doc marshaled w with
       | (Err err, w') =>
           match fs_RemoveFile (Path doc) w' with
           | (Err err', w'') =>
               (Err (ErrWrap err' ("cleanup failed for file: " +:+ Path doc)), w'')
           | (Ok _, w'') =>
               (Err (ErrWrap err "failed to put doc into dynamo"), w'')
           end
       | (Ok _, w') => (Ok tt, w')
       end.

(** [func (s Store) PutDoc(ctx, doc) error] *)
Definition PutDoc (doc : Doc) : M unit :=
  if decide (Path doc = "")
  then throw (ErrNew "can not create a new doc without a path")
  else
    let* doc := stampCreated doc in
    let* now := time_Now in
    let doc := set_UpdatedAt now doc in
    let* _ := wrap "failed to write doc to file store"
                (fs_WriteFile (Path doc) (Content doc)) in
    let doc := set_Content "" doc in
    let* marshaled := wrap "failed to marshal doc for dynamo" (MarshalMap doc) in
    putOrRollback doc marshaled.

(** [func (s Store) TagDoc(ctx, path, tags...) error] *)
Fixpoint TagDoc (path : string) (tags : list string) : M unit :=
  match tags with
  | [] => ret tt
  | t :: rest =>
      let* tag := lift (λ w, getItem_tag w t) in
      if contains (elems (Paths tag)) path then TagDoc path rest
      else
        let tag := if decide (TagName tag = "") then set_TagName t tag else tag in
        let tag := set_Paths (append (Paths tag) path) tag in
        let* marshaled := MarshalMap tag in
        let* _ := PutItem_tag marshaled in
        TagDoc path rest
  end.

(** [func (s Store) RemoveDoc(ctx, path) error] *)
Definition RemoveDoc (path : string) : M unit :=
  let* _ := wrap "failed to remove doc from file store" (fs_RemoveFile path) in
  let* key := wrap "failed to make key" (makeKey path) in
  wrap "failed to delete doc from dynamo" (DeleteItem_doc key).

End Coordinator.

(** ** Derived notions *)

(** How often a path occurs in a path set. *)
Definition occurrences (x : string) (s : list string) : nat :=
  length (filter (λ y, y = x) s).

(** The record a successful [PutDoc] leaves in the document table: the
    stamped document with its update time and without its content. *)
Definition stored (env : Env) (doc1 : Doc) (w1 : World) : Doc :=
  set_Content "" (set_UpdatedAt (clock env (ticks w1)) doc1).

(** The write sequence after the existence check, outcome by outcome: the
    file store is written first, then the record without its content; a
    refused metadata write deletes the blob again. *)
Definition writeOutcome (env : Env) (doc doc1 : Doc) (w1 : World) : Result unit * World :=
  let written := set_fs (<[Path doc := Content doc]> (fs w1)) (tick w1) in
  match fault env (OpWriteFile (Path doc)) with
  | Some m => (Err (ErrWrap (ErrStore m) "failed to write doc to file store"), tick w1)
  | None =>
      match fault env OpMarshalMap with
      | Some m => (Err (ErrWrap (ErrStore m) "failed to marshal doc for dynamo"), written)
      | None =>
          match fault env (OpPutItem DocT (Path doc)) with
          | None =>
              (Ok tt, set_docTable (<[Path doc := stored env doc1 w1]> (docTable w1)) written)
          | Some m =>
              match fault env (OpRemoveFile (Path doc)) with
              | Some m' =>
                  (Err (ErrWrap (ErrStore m') ("cleanup failed for file: " +:+ Path doc)),
                   written)
              | None =>
                  (Err (ErrWrap (ErrStore m) "failed to put doc into dynamo"),
                   set_fs (delete (Path doc) (<[Path doc := Content doc]> (fs w1))) (tick w1))
              end
          end
      end
  end.

(** The record [TagDoc] writes back for a tag that lacks the path. *)
Definition tagged (t path : string) (tag : Tag) : Tag :=
  mkTag (if decide (TagName tag = "") then t else TagName tag)
        (Some (elems (Paths tag) ++ [path])).

(** One way to intersect two path sequences: the paths of the left one that
    occur in the right one, in the order of the left. Used where a concrete
    [intersect] is needed. *)
Definition intersect_paths (left right : slice string) : slice string :=
  Some (filter (λ p, contains (elems right) p = true) (elems left)).

(** ** Invariants of the tables *)

(** No record of the document table carries content. *)
Definition docs_stripped (w : World) : Prop :=
  ∀ p d, docTable w !! p = Some d → Content d = "".

(** Each tag record sits under its own name, as the items of a DynamoDB
    table sit under their key attribute. *)
Definition tags_keyed (w : World) : Prop :=
  ∀ t r, tagTable w !! t = Some r → TagName r = t.

(** No tag record lists a path twice. *)
Definition tags_nodup (w : World) : Prop :=
  ∀ t r, tagTable w !! t = Some r → NoDup (elems (Paths r)).

(** ** Concrete scenarios *)

(** A clock that advances by one between two readings, an empty text
    index, services that never fail. *)
Definition quiet : Env := mkEnv (λ n, Z.of_nat n) (λ _, Ok []) (λ _, None).

(** DynamoDB refuses every write and the file store every removal. *)
Definition both_down : Env :=
  mkEnv (λ n, Z.of_nat n) (λ _, Ok [])
        (λ o, match o with
              | OpPutItem _ _ => Some "dynamo: unavailable"
              | OpRemoveFile _ => Some "disk: read-only"
              | _ => None
              end).

(** A text index that matches the stored document for "hello". *)
Definition indexed : Env :=
  mkEnv (λ n, Z.of_nat n)
        (λ q, if decide (q = "hello") then Ok ["notes/a"] else Ok [])
        (λ _, None).

(** Nothing stored yet. *)
Definition empty : World := mkWorld ∅ ∅ ∅ 0.

(** A document as a caller posts it, its times unset. *)
Definition note : Doc := mkDoc "notes/a" "hello" 0 0.

(** One document, written at instant 5, with its blob. *)
Definition one_doc : World :=
  mkWorld {[ "notes/a" := mkDoc "notes/a" "" 5 5 ]} ∅ {[ "notes/a" := "old" ]} 7.

(** The same document with its blob lost. *)
Definition lost_blob : World :=
  mkWorld {[ "notes/a" := mkDoc "notes/a" "" 5 5 ]} ∅ ∅ 7.


(** The tag "todo" on one other document. *)
Definition one_tag : World :=
  mkWorld ∅ {[ "todo" := mkTag "todo" (Some ["notes/b"]) ]} ∅ 0.

(** Each record of the document table sits under its own path. *)
Definition docs_keyed (w : World) : Prop :=
  ∀ p d, docTable w !! p = Some d → Path d = p.

(** The file store refuses every write. *)
Definition disk_full : Env :=
  mkEnv (λ n, Z.of_nat n) (λ _, Ok [])
        (λ o, match o with OpWriteFile _ => Some "disk: full" | _ => None end).

(** Marshalling fails. *)
Definition marshal_broken : Env :=
  mkEnv (λ n, Z.of_nat n) (λ _, Ok [])
        (λ o, match o with OpMarshalMap => Some "marshal: unsupported" | _ => None end).

(** DynamoDB refuses every write and every delete; the file store works. *)
Definition dynamo_down : Env :=
  mkEnv (λ n, Z.of_nat n) (λ _, Ok [])
        (λ o, match o with
              | OpPutItem _ _ | OpDeleteItem _ _ => Some "dynamo: unavailable"
              | _ => None
              end).

(** DynamoDB refuses every read. *)
Definition dynamo_unreadable : Env :=
  mkEnv (λ n, Z.of_nat n) (λ _, Ok [])
        (λ o, match o with OpGetItem _ _ => Some "dynamo: throttled" | _ => None end).

(** Two documents with their blobs; "todo" is on both, "draft" on the
    second only. *)
Definition two_docs : World :=
  mkWorld {[ "notes/a" := mkDoc "notes/a" "" 5 5; "notes/b" := mkDoc "notes/b" "" 6 6 ]}
          {[ "todo" := mkTag "todo" (Some ["notes/a"; "notes/b"]);
             "draft" := mkTag "draft" (Some ["notes/b"]) ]}
          {[ "notes/a" := "old"; "notes/b" := "other" ]} 7.

(** One document under "todo", and a record for "draft" that came back
    without a path list. *)
Definition nil_tag : World :=
  mkWorld {[ "notes/a" := mkDoc "notes/a" "" 5 5 ]}
          {[ "todo" := mkTag "todo" (Some ["notes/a"]);
             "draft" := mkTag "draft" None ]}
          {[ "notes/a" := "old" ]} 7.

(** The file store works; DynamoDB accepts everything but the fetch of the
    tag "later". *)
Definition later_unreadable : Env :=
  mkEnv (λ n, Z.of_nat n) (λ _, Ok [])
        (λ o, match o with
              | OpGetItem TagT t => if decide (t = "later") then Some "dynamo: throttled" else None
              | _ => None
              end).

(** ** The HTTP server (http/http.go) *)

(** Modelled from the spec: [docshelf.User] is declared in the root
    package; the handlers read its [ID], [Email] and [Token]. *)
Record User : Type := mkUser {
  ID : string;
  Email : string;
  Token : string
}.

(** A [docshelf.Authenticator]: its method [Authenticate(ctx, email,
    token) (User, error)]. *)
Definition Authenticator : Type := string → string → Result User.

(** An interface value of a store: [None] is nil, [Some n] an
    implementation. *)
Definition iface : Type := option string.

(** [type Server struct]; the logger and the document handler play no part
    in the functions below and are left out. [authenticators] is the map
    the copies of a [Server] share. *)
Record Server : Type := mkServer {
  host : string;
  port : N;
  authenticators : gmap string Authenticator;
  UserStore : iface;
  GroupStore : iface;
  PolicyStore : iface
}.

(** [func NewServer(host, port, logger) Server] *)
Definition NewServer (host : string) (port : N) : Server :=
  mkServer host port ∅ None None None.

(** [func (s Server) AddAuth(name, auth)]: [s.authenticators[name] = auth] *)
Definition AddAuth (name : string) (auth : Authenticator) (s : Server) : Server :=
  mkServer (host s) (port s) (<[name := auth]> (authenticators s))
           (UserStore s) (GroupStore s) (PolicyStore s).

(** [func (s Server) CheckHandlers() error] *)
Definition CheckHandlers (s : Server) : Result unit :=
  if decide (UserStore s = None) then Err (ErrNew "no UserStore set")
  else if decide (GroupStore s = None) then Err (ErrNew "no GroupStore set")
  else if decide (PolicyStore s = None) then Err (ErrNew "no PolicyStore set")
  else if decide (size (authenticators s) = 0%nat) then Err (ErrNew "no Authenticator set")
  else Ok tt.

(** [http.Cookie], with the fields the handlers set. *)
Record Cookie : Type := mkCookie {
  Name : string;
  Value : string;
  CookiePath : string;
  HttpOnly : bool
}.

(** What a handler does to its [http.ResponseWriter]: the call of
    [http.SetCookie] with the cookie value passed to it, and the calls of
    the response helpers of the package (outside this source tree),
    recorded by name and argument. What goes to the log is not
    recorded. *)
Inductive effect : Type :=
| SetCookie (c : Cookie)
| badRequest (msg : string)
| unauthorized (msg : string)
| serverError (msg : string)
| noContent
| redirect (url : string).

(** A handler returns after its effects, or panics: calling [Authenticate]
    on the nil interface value that a map gives for a missing key. In both
    handlers that call comes before any effect. *)
Inductive outcome : Type :=
| Returns (effects : list effect)
| Panics.

(** The cookie both login handlers set. *)
Definition identity (value : string) : Cookie := mkCookie "session" value "/" true.

(** [func (s Server) handleLogin(w, r)]; [body] is what
    [json.NewDecoder(r.Body).Decode(&login)] gave. *)
Definition handleLogin (s : Server) (body : Result User) : outcome :=
  match body with
  | Err _ => Returns [badRequest "invalid authentication data"]
  | Ok login =>
      let provider := if decide (Email login = "") then "google" else "basic" in
      match authenticators s !! provider with
      | None => Panics
      | Some auth =>
          match auth (Email login) (Token login) with
          | Err _ => Returns [unauthorized "invalid credentials"]
          | Ok user => Returns [SetCookie (identity (ID user)); noContent]
          end
      end
  end.

(** [func handleLogout(w, r)] *)
Definition handleLogout : outcome :=
  Returns [SetCookie (identity ""); redirect "http://localhost:9001"].

(** [func (s Server) handleOauth(w, r)]; [provider] is the URL parameter and
    [code] the query parameter of the request. *)
Definition handleOauth (s : Server) (provider code : string) : outcome :=
  match authenticators s !! provider with
  | None => Panics
  | Some auth =>
      match auth "" code with
      | Err _ => Returns [serverError "authentication failed"]
      | Ok user =>
          Returns [SetCookie (identity (ID user)); redirect "http://localhost:9001"]
      end
  end.

(** An authenticator that knows one user and her password. *)
Definition passwords : Authenticator :=
  λ email token,
    if decide (email = "ada@example.org" ∧ token = "s3cret")
    then Ok (mkUser "u1" email token)
    else Err (ErrNew "bad credentials").

(** A server with its three stores and password login only. *)
Definition password_server : Server :=
  mkServer "localhost" 1337 {[ "basic" := passwords ]}
           (Some "dynamo") (Some "dynamo") (Some "dynamo").

(** ** The tag code over any [getItem] *)

(** [getItem] is not part of this source tree. Section 6 of the design
    gives it a NotFound error for a missing item, which is how [getItem_doc]
    and [getItem_tag] above answer; [TagDoc] itself is written for a fetch
    that finds nothing, leaves the record at its zero value and returns no
    error (its comment "no tag was returned", its test [tag.Tag == ""]).
    The definitions of this section are the code of [listDocs],
    [listTaggedDocs], [ListDocs] and [TagDoc] once more, with the two uses
    of [getItem] as parameters, so that a property can be stated for
    whatever [getItem] does. *)

(** The zero value of [var tag Tag]. *)
Definition zeroTag : Tag := mkTag "" None.

Section AnyGetItem.

Variable env : Env.
Variable intersect : slice string → slice string → slice string.

(** [s.getItem(ctx, s.docTable, "path", path, &doc)] and
    [s.getItem(ctx, s.tagTable, "tag", t, &tag)]: [Ok r] is a nil error
    with [r] in the variable passed. *)
Variable getDoc : World → string → Result Doc.
Variable getTag : World → string → Result Tag.





Fixpoint TagDoc_with (path : string) (tags : list string) : M unit :=
  match tags with
  | [] => ret tt
  | t :: rest =>
      let* tag := lift (λ w, getTag w t) in
      if contains (elems (Paths tag)) path then TagDoc_with path rest
      else
        let tag := if decide (TagName tag = "") then set_TagName t tag else tag in
        let tag := set_Paths (append (Paths tag) path) tag in
        let* marshaled := MarshalMap env tag in
        let* _ := PutItem_tag env marshaled in
        TagDoc_with path rest
  end.

End AnyGetItem.

(** A tag fetch that answers a missing item with the zero record and no
    error, as DynamoDB's own GetItem answers a missing key with an empty
    item. *)
Definition getItem_tag_empty (env : Env) (w : World) (t : string) : Result Tag :=
  match fault env (OpGetItem TagT t) with
  | Some m => Err (ErrStore m)
  | None => Ok (default zeroTag (tagTable w !! t))
  end.

(** What any tag fetch is taken to do when it returns no error: it hands
    back the record stored under the name, or the zero record when there is
    none. *)
Definition fetches_tags (getTag : World → string → Result Tag) : Prop :=
  ∀ w t r, getTag w t = Ok r →
           tagTable w !! t = Some r ∨ (tagTable w !! t = None ∧ r = zeroTag).


(** ** Properties *)

(** *** The helpers *)

Lemma contains_true (s : list string) (x : string) :
  contains s x = true ↔ x ∈ s.
Proof.
  induction s as [|y s IH]; simpl.
  - split; [discriminate | intros H; inversion H].
  - destruct (decide (y = x)) as [->|Hne].
    + split; [intros _; left | reflexivity].
    + rewrite IH. split; [intros H; now right |].
      intros H. inversion H; subst; [congruence | assumption].
Qed.

Lemma contains_false (s : list string) (x : string) :
  contains s x = false ↔ x ∉ s.
Proof.
  rewrite <- contains_true. destruct (contains s x); split; congruence.
Qed.

Lemma occurrences_absent (x : string) (s : list string) :
  x ∉ s → occurrences x s = 0%nat.
Proof.
  unfold occurrences. induction s as [|y s IH]; intros Hx; [reflexivity |].
  rewrite filter_cons. destruct (decide (y = x)) as [->|Hne].
  - exfalso. apply Hx. left.
  - apply IH. intros H. apply Hx. now right.
Qed.

Lemma occurrences_NoDup (x : string) (s : list string) :
  NoDup s → x ∈ s → occurrences x s = 1%nat.
Proof.
  unfold occurrences. induction 1 as [|y s Hy Hs IH]; intros Hx.
  - inversion Hx.
  - rewrite filter_cons. destruct (decide (y = x)) as [->|Hne]; simpl.
    + f_equal. now apply occurrences_absent.
    + apply IH. inversion Hx; subst; [congruence | assumption].
Qed.

(** Unfolding of the record updates and projections left by a step. *)
Ltac reduce_fields :=
  cbv [set_CreatedAt set_UpdatedAt set_Content set_TagName set_Paths
       set_docTable set_tagTable set_fs tick];
  cbn [Path Content CreatedAt UpdatedAt TagName Paths
       docTable tagTable fs ticks fst snd].

(** Case analysis on whether a call to a backing service is refused. *)
Ltac case_fault e o :=
  let m := fresh "m" in
  let Hf := fresh "Hfault" in
  destruct (fault e o) as [m|] eqn:Hf; reduce_fields.

(** *** The existence check and the write sequence of [PutDoc] *)

Lemma stampCreated_eq (env : Env) (doc : Doc) (w : World) :
  stampCreated env doc w =
  match GetDoc env w (Path doc) with
  | Ok _ => (Ok doc, w)
  | Err e =>
      if CheckDoesNotExist e
      then (Ok (set_CreatedAt (clock env (ticks w)) doc), tick w)
      else (Err (ErrWrap e "could not verify existing file"), w)
  end.
Proof.
  unfold stampCreated. destruct (GetDoc env w (Path doc)) as [d|e]; [reflexivity |].
  destruct (CheckDoesNotExist e); reflexivity.
Qed.

Lemma stampCreated_Ok (env : Env) (doc doc1 : Doc) (w w1 : World) :
  stampCreated env doc w = (Ok doc1, w1) →
  Path doc1 = Path doc ∧ Content doc1 = Content doc ∧ UpdatedAt doc1 = UpdatedAt doc ∧
  docTable w1 = docTable w ∧ tagTable w1 = tagTable w ∧ fs w1 = fs w.
Proof.
  rewrite stampCreated_eq. intros H.
  destruct (GetDoc env w (Path doc)) as [d|e].
  - inversion H; subst. repeat split; reflexivity.
  - destruct (CheckDoesNotExist e); inversion H; subst. repeat split; reflexivity.
Qed.

Lemma PutDoc_Ok_inv (env : Env) (doc : Doc) (w w' : World) :
  PutDoc env doc w = (Ok tt, w') →
  Path doc ≠ "" ∧
  ∃ doc1 w1,
    stampCreated env doc w = (Ok doc1, w1) ∧
    docTable w' = <[Path doc := stored env doc1 w1]> (docTable w) ∧
    fs w' = <[Path doc := Content doc]> (fs w) ∧
    tagTable w' = tagTable w.
Proof.
  unfold PutDoc. destruct (decide (Path doc = "")) as [|Hp]; [done |].
  intros H. split; [assumption |]. revert H.
  unfold bind at 1. destruct (stampCreated env doc w) as [[doc1|e] w1] eqn:Hs;
    [| done].
  destruct (stampCreated_Ok _ _ _ _ _ Hs) as (HP & HC & _ & HD & HT & HF).
  unfold bind, wrap, time_Now, fs_WriteFile, MarshalMap, putOrRollback,
    PutItem_doc, fs_RemoveFile, stored.
  reduce_fields. rewrite HP, HC, HD, HF, HT.
  case_fault env (OpWriteFile (Path doc)); [done |].
  case_fault env OpMarshalMap; [done |].
  case_fault env (OpPutItem DocT (Path doc)).
  - case_fault env (OpRemoveFile (Path doc)); [done |].
    rewrite lookup_insert_eq. done.
  - intros H. inversion H; subst; clear H. exists doc1, w1.
    reduce_fields. now rewrite HP.
Qed.

(** What [GetDoc] returns is the record of the document table with the
    blob of the file store attached. *)
Lemma GetDoc_Ok (env : Env) (w : World) (path : string) (d : Doc) :
  GetDoc env w path = Ok d ↔
  fault env (OpGetItem DocT path) = None ∧
  fault env (OpReadFile path) = None ∧
  ∃ rec content,
    docTable w !! path = Some rec ∧ fs w !! path = Some content ∧
    d = set_Content content rec.
Proof.
  unfold GetDoc, getItem_doc, fs_ReadFile.
  case_fault env (OpGetItem DocT path).
  { split; [done | intros (? & _); done]. }
  destruct (docTable w !! path) as [rec|].
  2: { split; [done | intros (_ & _ & ? & ? & ? & _); done]. }
  case_fault env (OpReadFile path).
  { split; [done | intros (_ & ? & _); done]. }
  destruct (fs w !! path) as [content|].
  2: { split; [done | intros (_ & _ & ? & ? & _ & ? & _); done]. }
  split.
  - intros [= <-]. repeat split. by exists rec, content.
  - intros (_ & _ & rec' & content' & [= <-] & [= <-] & ->). done.
Qed.

(** *** Write then read *)

(** C6: a successful [PutDoc] followed by [GetDoc] of the same path gives a
    document with the content and the path that were put; the read succeeds
    whenever neither of its two fetches is refused. *)
Theorem PutDoc_GetDoc_roundtrip (env env' : Env) (doc : Doc) (w w' : World) :
  PutDoc env doc w = (Ok tt, w') →
  Path doc ≠ "" ∧
  (∀ d, GetDoc env' w' (Path doc) = Ok d →
        Content d = Content doc ∧ Path d = Path doc) ∧
  (fault env' (OpGetItem DocT (Path doc)) = None →
   fault env' (OpReadFile (Path doc)) = None →
   ∃ d, GetDoc env' w' (Path doc) = Ok d).
Proof.
  intros H. destruct (PutDoc_Ok_inv _ _ _ _ H) as (Hp & doc1 & w1 & Hs & HD & HF & _).
  destruct (stampCreated_Ok _ _ _ _ _ Hs) as (HP & _).
  split; [assumption |]. split.
  - intros d Hd. apply GetDoc_Ok in Hd as (_ & _ & rec & content & Hrec & Hc & ->).
    rewrite HD, lookup_insert_eq in Hrec. rewrite HF, lookup_insert_eq in Hc.
    inversion Hrec; inversion Hc; subst. unfold stored. reduce_fields. auto.
  - intros Hg Hr. eexists. apply GetDoc_Ok. repeat split; try assumption.
    exists (stored env doc1 w1), (Content doc).
    rewrite HD, HF, !lookup_insert_eq. auto.
Qed.

Lemma PutDoc_GetDoc_roundtrip_witness :
  PutDoc quiet note empty = (Ok tt, snd (PutDoc quiet note empty)) ∧
  GetDoc quiet (snd (PutDoc quiet note empty)) "notes/a"
  = Ok (mkDoc "notes/a" "hello" 0 1).
Proof.
  split; [vm_compute; reflexivity |].
  destruct (PutDoc_GetDoc_roundtrip quiet quiet note empty
              (snd (PutDoc quiet note empty))) as (_ & _ & _);
    vm_compute; reflexivity.
Defined.

(** *** Every outcome of [PutDoc] *)

Lemma PutDoc_eq (env : Env) (doc : Doc) (w : World) :
  Path doc ≠ "" →
  PutDoc env doc w =
  match stampCreated env doc w with
  | (Err e, w1) => (Err e, w1)
  | (Ok doc1, w1) => writeOutcome env doc doc1 w1
  end.
Proof.
  intros Hp. unfold PutDoc. destruct (decide (Path doc = "")); [done |].
  unfold bind at 1. destruct (stampCreated env doc w) as [[doc1|e] w1] eqn:Hs; [| done].
  destruct (stampCreated_Ok _ _ _ _ _ Hs) as (HP & HC & _).
  unfold bind, wrap, time_Now, fs_WriteFile, MarshalMap, putOrRollback,
    PutItem_doc, fs_RemoveFile, writeOutcome, stored.
  reduce_fields. rewrite HP, HC.
  case_fault env (OpWriteFile (Path doc)); [done |].
  case_fault env OpMarshalMap; [done |].
  case_fault env (OpPutItem DocT (Path doc)); [| done].
  case_fault env (OpRemoveFile (Path doc)); [done |].
  by rewrite lookup_insert_eq.
Qed.

Lemma PutDoc_no_path (env : Env) (doc : Doc) (w : World) :
  Path doc = "" →
  PutDoc env doc w = (Err (ErrNew "can not create a new doc without a path"), w).
Proof. intros Hp. unfold PutDoc. by destruct (decide (Path doc = "")). Qed.

(** What any call of [PutDoc] does to the document table: nothing, or one
    record without content under the document's path. *)
Lemma PutDoc_docTable (env : Env) (doc : Doc) (w : World) :
  docTable (snd (PutDoc env doc w)) = docTable w ∨
  ∃ rec, Content rec = "" ∧ Path rec = Path doc ∧
         docTable (snd (PutDoc env doc w)) = <[Path doc := rec]> (docTable w).
Proof.
  destruct (decide (Path doc = "")) as [Hp|Hp].
  { rewrite PutDoc_no_path by done. by left. }
  rewrite PutDoc_eq by done.
  destruct (stampCreated env doc w) as [[doc1|e] w1] eqn:Hs.
  - destruct (stampCreated_Ok _ _ _ _ _ Hs) as (HP & _ & _ & HD & _).
    unfold writeOutcome.
    case_fault env (OpWriteFile (Path doc)); [by left |].
    case_fault env OpMarshalMap; [by left |].
    case_fault env (OpPutItem DocT (Path doc)).
    + case_fault env (OpRemoveFile (Path doc)); by left.
    + right. exists (stored env doc1 w1). rewrite HD. by rewrite <- HP.
  - rewrite stampCreated_eq in Hs. left.
    destruct (GetDoc env w (Path doc)); [done |].
    destruct (CheckDoesNotExist e0); by inversion Hs.
Qed.

(** [PutDoc] never touches the tag table. *)
Lemma PutDoc_tagTable (env : Env) (doc : Doc) (w : World) :
  tagTable (snd (PutDoc env doc w)) = tagTable w.
Proof.
  destruct (decide (Path doc = "")) as [Hp|Hp].
  { by rewrite PutDoc_no_path. }
  rewrite PutDoc_eq by done.
  destruct (stampCreated env doc w) as [[doc1|e] w1] eqn:Hs.
  - destruct (stampCreated_Ok _ _ _ _ _ Hs) as (_ & _ & _ & _ & HT & _).
    unfold writeOutcome.
    case_fault env (OpWriteFile (Path doc)); [done |].
    case_fault env OpMarshalMap; [done |].
    case_fault env (OpPutItem DocT (Path doc)); [| done].
    case_fault env (OpRemoveFile (Path doc)); done.
  - rewrite stampCreated_eq in Hs.
    destruct (GetDoc env w (Path doc)); [done |].
    destruct (CheckDoesNotExist e0); by inversion Hs.
Qed.

(** *** Every outcome of [TagDoc] and [RemoveDoc] *)

Lemma TagDoc_cons (env : Env) (path t : string) (rest : list string) (w : World) :
  TagDoc env path (t :: rest) w =
  match getItem_tag env w t with
  | Err e => (Err e, w)
  | Ok tag =>
      if contains (elems (Paths tag)) path then TagDoc env path rest w
      else
        match fault env OpMarshalMap with
        | Some m => (Err (ErrStore m), w)
        | None =>
            match fault env (OpPutItem TagT (TagName (tagged t path tag))) with
            | Some m => (Err (ErrStore m), w)
            | None =>
                TagDoc env path rest
                  (set_tagTable (<[TagName (tagged t path tag) := tagged t path tag]>
                                   (tagTable w)) w)
            end
        end
  end.
Proof.
  cbn [TagDoc]. unfold bind at 1, lift.
  destruct (getItem_tag env w t) as [tag|e]; [| done].
  destruct (contains (elems (Paths tag)) path); [done |].
  unfold bind, MarshalMap, PutItem_tag, tagged, append.
  case_fault env OpMarshalMap; [done |].
  destruct (decide (TagName tag = "")); reduce_fields;
    match goal with |- context [fault env ?o] => case_fault env o end; done.
Qed.

Lemma getItem_tag_Ok (env : Env) (w : World) (t : string) (tag : Tag) :
  getItem_tag env w t = Ok tag ↔
  fault env (OpGetItem TagT t) = None ∧ tagTable w !! t = Some tag.
Proof.
  unfold getItem_tag. case_fault env (OpGetItem TagT t).
  { split; [done | intros (? & _); done]. }
  destruct (tagTable w !! t) as [r|].
  - split; [intros [= <-]; done | intros (_ & [= <-]); done].
  - split; [done | intros (_ & ?); done].
Qed.

(** [TagDoc] touches the tag table only. *)
Lemma TagDoc_frame (env : Env) (path : string) (tags : list string) (w : World) :
  docTable (snd (TagDoc env path tags w)) = docTable w ∧
  fs (snd (TagDoc env path tags w)) = fs w.
Proof.
  revert w. induction tags as [|t rest IH]; intros w; [done |].
  rewrite TagDoc_cons.
  destruct (getItem_tag env w t) as [tag|e]; [| done].
  destruct (contains (elems (Paths tag)) path); [apply IH |].
  case_fault env OpMarshalMap; [done |].
  match goal with |- context [fault env ?o] => case_fault env o end; [done |].
  match goal with |- context [TagDoc env path rest ?w1] =>
    destruct (IH w1) as [-> ->] end.
  done.
Qed.

Lemma RemoveDoc_eq (env : Env) (path : string) (w : World) :
  RemoveDoc env path w =
  match fs_RemoveFile env path w with
  | (Err e, w1) => (Err (ErrWrap e "failed to remove doc from file store"), w1)
  | (Ok _, w1) =>
      match fault env OpMakeKey with
      | Some m => (Err (ErrWrap (ErrStore m) "failed to make key"), w1)
      | None =>
          match fault env (OpDeleteItem DocT path) with
          | Some m => (Err (ErrWrap (ErrStore m) "failed to delete doc from dynamo"), w1)
          | None => (Ok tt, set_docTable (delete path (docTable w1)) w1)
          end
      end
  end.
Proof.
  unfold RemoveDoc, bind at 1, wrap at 1.
  destruct (fs_RemoveFile env path w) as [[[]|e] w1]; [| done].
  unfold bind, wrap, makeKey, DeleteItem_doc.
  case_fault env OpMakeKey; [done |].
  case_fault env (OpDeleteItem DocT path); done.
Qed.

(** [RemoveDoc] never touches the tag table. *)
Lemma RemoveDoc_tagTable (env : Env) (path : string) (w : World) :
  tagTable (snd (RemoveDoc env path w)) = tagTable w.
Proof.
  rewrite RemoveDoc_eq. unfold fs_RemoveFile.
  case_fault env (OpRemoveFile path); [done |].
  destruct (fs w !! path); [| done].
  case_fault env OpMakeKey; [done |].
  case_fault env (OpDeleteItem DocT path); done.
Qed.

(** A refused or failed [RemoveFile] leaves the services as they were; a
    successful one removes the blob and nothing else. *)
Lemma fs_RemoveFile_cases (env : Env) (path : string) (w : World) :
  (∃ e, fs_RemoveFile env path w = (Err e, w)) ∨
  (is_Some (fs w !! path) ∧
   fs_RemoveFile env path w = (Ok tt, set_fs (delete path (fs w)) w)).
Proof.
  unfold fs_RemoveFile. case_fault env (OpRemoveFile path); [left; eauto |].
  destruct (fs w !! path) as [c|]; [right; eauto | left; eauto].
Qed.

(** *** Records in the document table carry no content *)

Lemma docs_stripped_empty : docs_stripped empty.
Proof. intros p d H. cbn in H. by rewrite lookup_empty in H. Qed.

(** C9: every record [PutDoc] writes to the document table has an empty
    content field, while the content itself went to the file store first;
    so no operation that writes (PutDoc, TagDoc, RemoveDoc) ever leaves a
    record with content in the document table. *)
Theorem PutDoc_strips_content
    (env : Env) (doc : Doc) (path : string) (tags : list string) (w : World) :
  (∀ p d, docTable (snd (PutDoc env doc w)) !! p = Some d →
          docTable w !! p = Some d ∨ Content d = "") ∧
  (∀ w', PutDoc env doc w = (Ok tt, w') →
         fs w' !! Path doc = Some (Content doc) ∧
         ∃ rec, docTable w' !! Path doc = Some rec ∧ Content rec = "") ∧
  (docs_stripped w →
   docs_stripped (snd (PutDoc env doc w)) ∧
   docs_stripped (snd (TagDoc env path tags w)) ∧
   docs_stripped (snd (RemoveDoc env path w))).
Proof.
  assert (Hput : ∀ p d, docTable (snd (PutDoc env doc w)) !! p = Some d →
                        docTable w !! p = Some d ∨ Content d = "").
  { intros p d. destruct (PutDoc_docTable env doc w) as [-> | (rec & Hc & _ & ->)];
      [by left |].
    destruct (decide (Path doc = p)) as [<-|Hne].
    - rewrite lookup_insert_eq. intros [= <-]. by right.
    - rewrite lookup_insert_ne by done. by left. }
  split; [exact Hput |]. split.
  - intros w' H. destruct (PutDoc_Ok_inv _ _ _ _ H) as (_ & doc1 & w1 & _ & HD & HF & _).
    rewrite HF, HD, !lookup_insert_eq. split; [done |]. by eexists.
  - intros Hw. repeat split.
    + intros p d H. destruct (Hput p d H); eauto.
    + intros p d. destruct (TagDoc_frame env path tags w) as [-> _]. apply Hw.
    + intros p d. rewrite RemoveDoc_eq.
      destruct (fs_RemoveFile_cases env path w) as [[e ->] | [_ ->]]; [apply Hw |].
      case_fault env OpMakeKey; [apply Hw |].
      case_fault env (OpDeleteItem DocT path); [apply Hw |].
      intros H. apply lookup_delete_Some in H as [_ H]. by apply Hw in H.
Qed.

Lemma PutDoc_strips_content_witness :
  docs_stripped (snd (PutDoc quiet note empty)) ∧
  docTable (snd (PutDoc quiet note empty)) !! "notes/a" = Some (mkDoc "notes/a" "" 0 1) ∧
  fs (snd (PutDoc quiet note empty)) !! "notes/a" = Some "hello".
Proof.
  split; [| split; vm_compute; reflexivity].
  apply (PutDoc_strips_content quiet note "notes/a" [] empty).
  exact docs_stripped_empty.
Defined.

(** *** Deleting a document *)

(** C8: [RemoveDoc] removes the blob before the record. When the removal of
    the blob fails, the error comes back at once and nothing has changed;
    the record is deleted only once the blob is gone, so a path whose
    record is missing while its blob is present was already so before the
    call. When the removal of the blob is accepted, the blob is gone
    whatever follows: if the key and the delete are accepted too the record
    is deleted and no error comes back, and if the call ends in an error
    the record is still there. *)
Theorem RemoveDoc_content_first (env : Env) (path : string) (w : World) :
  (∀ e w1, fs_RemoveFile env path w = (Err e, w1) →
           RemoveDoc env path w
           = (Err (ErrWrap e "failed to remove doc from file store"), w)) ∧
  (docTable (snd (RemoveDoc env path w)) ≠ docTable w →
   fs (snd (RemoveDoc env path w)) !! path = None) ∧
  (∀ p, docTable (snd (RemoveDoc env path w)) !! p = None →
        is_Some (fs (snd (RemoveDoc env path w)) !! p) →
        docTable w !! p = None ∧ is_Some (fs w !! p)) ∧
  (fault env (OpRemoveFile path) = None → is_Some (fs w !! path) →
   fs (snd (RemoveDoc env path w)) = delete path (fs w) ∧
   (fault env OpMakeKey = None → fault env (OpDeleteItem DocT path) = None →
    RemoveDoc env path w
    = (Ok tt, set_docTable (delete path (docTable w)) (set_fs (delete path (fs w)) w))) ∧
   (∀ e, fst (RemoveDoc env path w) = Err e →
         docTable (snd (RemoveDoc env path w)) = docTable w)).
Proof.
  assert (Hfirst :
    (∀ e w1, fs_RemoveFile env path w = (Err e, w1) →
             RemoveDoc env path w
             = (Err (ErrWrap e "failed to remove doc from file store"), w)) ∧
    (docTable (snd (RemoveDoc env path w)) ≠ docTable w →
     fs (snd (RemoveDoc env path w)) !! path = None) ∧
    (∀ p, docTable (snd (RemoveDoc env path w)) !! p = None →
          is_Some (fs (snd (RemoveDoc env path w)) !! p) →
          docTable w !! p = None ∧ is_Some (fs w !! p))).
  { rewrite RemoveDoc_eq.
    destruct (fs_RemoveFile_cases env path w) as [[e He] | [Hin He]]; rewrite He.
    - repeat split; try done. by intros e' w1 [= <- <-].
    - split; [done |].
      assert (Hgone : fs (set_fs (delete path (fs w)) w) !! path = None)
        by (reduce_fields; apply lookup_delete_eq).
      assert (Hkeep : ∀ p, is_Some (fs (set_fs (delete path (fs w)) w) !! p) →
                           p ≠ path ∧ is_Some (fs w !! p)).
      { intros p. reduce_fields. intros [c Hc].
        apply lookup_delete_Some in Hc as [Hne Hc]. split; [done | by eexists]. }
      case_fault env OpMakeKey;
        [split; [done | intros p ? ?; split; [done | apply Hkeep; done]] |].
      case_fault env (OpDeleteItem DocT path);
        [split; [done | intros p ? ?; split; [done | apply Hkeep; done]] |].
      split; [intros _; apply lookup_delete_eq |].
      intros p Hd Hf. destruct (Hkeep p Hf) as [Hne Hsome]. split; [| done].
      by rewrite lookup_delete_ne in Hd. }
  destruct Hfirst as (H1 & H2 & H3).
  split; [exact H1 |]. split; [exact H2 |]. split; [exact H3 |].
  intros Hrm [c Hc]. rewrite RemoveDoc_eq. unfold fs_RemoveFile. rewrite Hrm, Hc.
  split; [| split].
  - case_fault env OpMakeKey; [done |].
    case_fault env (OpDeleteItem DocT path); done.
  - intros Hk Hd. by rewrite Hk, Hd.
  - intros e. case_fault env OpMakeKey; [done |].
    case_fault env (OpDeleteItem DocT path); done.
Qed.

Lemma RemoveDoc_content_first_witness :
  RemoveDoc quiet "notes/a" lost_blob
  = (Err (ErrWrap (ErrDoesNotExist "file does not exist")
                  "failed to remove doc from file store"), lost_blob) ∧
  RemoveDoc quiet "notes/a" one_doc
  = (Ok tt, set_docTable (delete "notes/a" (docTable one_doc))
              (set_fs (delete "notes/a" (fs one_doc)) one_doc)) ∧
  fs (snd (RemoveDoc dynamo_down "notes/a" one_doc)) = delete "notes/a" (fs one_doc).
Proof.
  split; [| split].
  - apply (RemoveDoc_content_first quiet "notes/a" lost_blob) with (w1 := lost_blob).
    vm_compute. reflexivity.
  - destruct (RemoveDoc_content_first quiet "notes/a" one_doc) as (_ & _ & _ & H).
    destruct H as (_ & H & _); [reflexivity | by eexists |].
    apply H; reflexivity.
  - destruct (RemoveDoc_content_first dynamo_down "notes/a" one_doc) as (_ & _ & _ & H).
    destruct H as (H & _ & _); [reflexivity | by eexists |]. exact H.
Defined.

(** *** A refused metadata write *)

(** C2, as the code has it: when the metadata write of [PutDoc] is refused,
    the blob just written is removed again and the document table is left
    alone. If the removal succeeds, the error returned is the metadata-write
    error wrapped in "failed to put doc into dynamo" and the blob is gone;
    if the removal fails, the error returned is the removal's error wrapped
    in "cleanup failed for file: <path>" and the blob stays. *)
Theorem PutDoc_metadata_write_refused (env : Env) (doc : Doc) (w : World) (m : string) :
  Path doc ≠ "" →
  (∀ e, GetDoc env w (Path doc) = Err e → CheckDoesNotExist e = true) →
  fault env (OpWriteFile (Path doc)) = None →
  fault env OpMarshalMap = None →
  fault env (OpPutItem DocT (Path doc)) = Some m →
  docTable (snd (PutDoc env doc w)) = docTable w ∧
  match fault env (OpRemoveFile (Path doc)) with
  | None =>
      fst (PutDoc env doc w)
      = Err (ErrWrap (ErrStore m) "failed to put doc into dynamo") ∧
      fs (snd (PutDoc env doc w)) !! Path doc = None
  | Some m' =>
      fst (PutDoc env doc w)
      = Err (ErrWrap (ErrStore m') ("cleanup failed for file: " +:+ Path doc)) ∧
      fs (snd (PutDoc env doc w)) !! Path doc = Some (Content doc)
  end.
Proof.
  intros Hp Hget Hw Hm Hput. rewrite PutDoc_eq by done.
  destruct (stampCreated env doc w) as [[doc1|e] w1] eqn:Hs.
  - destruct (stampCreated_Ok _ _ _ _ _ Hs) as (_ & _ & _ & HD & _).
    unfold writeOutcome. rewrite Hw, Hm, Hput.
    case_fault env (OpRemoveFile (Path doc)).
    + by rewrite lookup_insert_eq.
    + by rewrite lookup_delete_eq.
  - rewrite stampCreated_eq in Hs.
    destruct (GetDoc env w (Path doc)) as [d|e']; [done |].
    by rewrite (Hget e' eq_refl) in Hs.
Qed.

Lemma PutDoc_metadata_write_refused_witness :
  fst (PutDoc both_down note empty)
  = Err (ErrWrap (ErrStore "disk: read-only") "cleanup failed for file: notes/a") ∧
  fs (snd (PutDoc both_down note empty)) !! "notes/a" = Some "hello".
Proof.
  apply (PutDoc_metadata_write_refused both_down note empty "dynamo: unavailable");
    try (vm_compute; reflexivity).
  - vm_compute. discriminate.
  - intros e H. vm_compute in H. by inversion H.
Defined.

(** C2, a case the design document gets wrong: with the metadata write and
    the rollback both refused, the error that comes back is the rollback's
    alone; the metadata-write error is nowhere in its chain. *)
Lemma PutDoc_rollback_error_hides_cause :
  ∃ e, fst (PutDoc both_down note empty) = Err e ∧
       fault both_down (OpPutItem DocT (Path note)) = Some "dynamo: unavailable" ∧
       reports e (ErrStore "disk: read-only") = true ∧
       reports e (ErrStore "dynamo: unavailable") = false.
Proof. eexists. repeat split; vm_compute; reflexivity. Qed.

(** *** Creation and update times *)

(** C3, as the code has it: in a successful [PutDoc], when the existence
    check finds nothing ([GetDoc] fails with does-not-exist) the stored
    [CreatedAt] is one reading of the clock and [UpdatedAt] the next one;
    when [GetDoc] succeeds the stored [CreatedAt] is the one of the document
    passed in, which [PutDoc] leaves untouched, and [UpdatedAt] is the
    current time. *)
Theorem PutDoc_timestamps (env : Env) (doc : Doc) (w w' : World) :
  PutDoc env doc w = (Ok tt, w') →
  ∃ rec, docTable w' !! Path doc = Some rec ∧
    match GetDoc env w (Path doc) with
    | Ok _ =>
        CreatedAt rec = CreatedAt doc ∧ UpdatedAt rec = clock env (ticks w)
    | Err e =>
        CheckDoesNotExist e = true ∧
        CreatedAt rec = clock env (ticks w) ∧
        UpdatedAt rec = clock env (S (ticks w))
    end.
Proof.
  intros H. destruct (PutDoc_Ok_inv _ _ _ _ H) as (_ & doc1 & w1 & Hs & HD & _).
  exists (stored env doc1 w1). rewrite HD, lookup_insert_eq. split; [done |].
  rewrite stampCreated_eq in Hs. unfold stored.
  destruct (GetDoc env w (Path doc)) as [d|e].
  - by inversion Hs; subst.
  - destruct (CheckDoesNotExist e); [| done]. by inversion Hs; subst.
Qed.

Lemma PutDoc_timestamps_witness :
  ∃ rec, docTable (snd (PutDoc quiet note empty)) !! "notes/a" = Some rec ∧
         CreatedAt rec = 0%Z ∧ UpdatedAt rec = 1%Z.
Proof.
  destruct (PutDoc_timestamps quiet note empty (snd (PutDoc quiet note empty)))
    as (rec & Hrec & H); [vm_compute; reflexivity |].
  exists rec. split; [exact Hrec |].
  change (GetDoc quiet empty (Path note))
    with (@Err Doc (ErrDoesNotExist "item does not exist")) in H.
  destruct H as (_ & H1 & H2). split; [exact H1 | exact H2].
Defined.

(** C3, a case the design document gets wrong: on a fresh path the two times
    are two readings of a clock that moved in between; on an existing
    document the creation time of the stored record is overwritten by the
    caller's. *)
Lemma PutDoc_createdAt_not_kept :
  (∃ rec, GetDoc quiet empty "notes/a" = Err (ErrDoesNotExist "item does not exist") ∧
          fst (PutDoc quiet note empty) = Ok tt ∧
          docTable (snd (PutDoc quiet note empty)) !! "notes/a" = Some rec ∧
          CreatedAt rec ≠ UpdatedAt rec) ∧
  (∃ old rec, docTable one_doc !! "notes/a" = Some old ∧
              fst (PutDoc quiet note one_doc) = Ok tt ∧
              docTable (snd (PutDoc quiet note one_doc)) !! "notes/a" = Some rec ∧
              CreatedAt rec ≠ CreatedAt old).
Proof.
  split.
  - exists (mkDoc "notes/a" "" 0 1). repeat split; try (vm_compute; reflexivity).
    vm_compute. discriminate.
  - exists (mkDoc "notes/a" "" 5 5), (mkDoc "notes/a" "" 0 7).
    repeat split; try (vm_compute; reflexivity). vm_compute. discriminate.
Qed.

(** *** A record whose blob is missing *)

(** C10, as the code has it: when the record of the path exists and its
    blob does not, the existence check of [PutDoc] fails in [ReadFile] with
    does-not-exist, which [PutDoc] takes for a new document: the creation
    time is set to now and, unless a later call is refused, both stores are
    written and no error comes back. When the read of the blob is itself
    refused, that error comes back wrapped and nothing is written. *)
Theorem PutDoc_missing_blob (env : Env) (doc rec : Doc) (w : World) :
  Path doc ≠ "" →
  docTable w !! Path doc = Some rec →
  fs w !! Path doc = None →
  fault env (OpGetItem DocT (Path doc)) = None →
  match fault env (OpReadFile (Path doc)) with
  | Some m =>
      PutDoc env doc w
      = (Err (ErrWrap (ErrStore m) "could not verify existing file"), w)
  | None =>
      stampCreated env doc w
      = (Ok (set_CreatedAt (clock env (ticks w)) doc), tick w) ∧
      (fault env (OpWriteFile (Path doc)) = None →
       fault env OpMarshalMap = None →
       fault env (OpPutItem DocT (Path doc)) = None →
       ∃ w', PutDoc env doc w = (Ok tt, w') ∧
             docTable w' !! Path doc
             = Some (mkDoc (Path doc) "" (clock env (ticks w)) (clock env (S (ticks w)))) ∧
             fs w' !! Path doc = Some (Content doc))
  end.
Proof.
  intros Hp Hrec Hblob Hget.
  assert (Hs : stampCreated env doc w =
               match fault env (OpReadFile (Path doc)) with
               | Some m => (Err (ErrWrap (ErrStore m) "could not verify existing file"), w)
               | None => (Ok (set_CreatedAt (clock env (ticks w)) doc), tick w)
               end).
  { rewrite stampCreated_eq. unfold GetDoc, getItem_doc, fs_ReadFile.
    rewrite Hget, Hrec, Hblob. by destruct (fault env (OpReadFile (Path doc))). }
  rewrite PutDoc_eq, Hs by done.
  destruct (fault env (OpReadFile (Path doc))) as [m|]; [done |].
  split; [done |]. intros Hw Hm Hput. eexists. split.
  - unfold writeOutcome. by rewrite Hw, Hm, Hput.
  - unfold stored. reduce_fields. by rewrite !lookup_insert_eq.
Qed.

Lemma PutDoc_missing_blob_witness :
  stampCreated quiet note lost_blob = (Ok (mkDoc "notes/a" "hello" 7 0), tick lost_blob).
Proof.
  apply (PutDoc_missing_blob quiet note (mkDoc "notes/a" "" 5 5) lost_blob);
    try (vm_compute; reflexivity).
  vm_compute. discriminate.
Defined.

(** C10, a case the design document gets wrong: the record is there, the
    blob is not, and [PutDoc] returns no error, writes the blob and replaces
    the record, with a new creation time. *)
Lemma PutDoc_missing_blob_writes :
  docTable lost_blob !! "notes/a" = Some (mkDoc "notes/a" "" 5 5) ∧
  fs lost_blob !! "notes/a" = None ∧
  fst (PutDoc quiet note lost_blob) = Ok tt ∧
  fs (snd (PutDoc quiet note lost_blob)) !! "notes/a" = Some "hello" ∧
  docTable (snd (PutDoc quiet note lost_blob)) !! "notes/a"
  = Some (mkDoc "notes/a" "" 7 8).
Proof. repeat split; vm_compute; reflexivity. Qed.

(** *** Listing *)

Lemma listDocs_Ok (env : Env) (w : World) (paths : list string) (docs : list Doc) :
  listDocs env w paths = Ok docs ↔
  Forall (λ p, fault env (OpGetItem DocT p) = None) paths ∧
  Forall2 (λ p d, docTable w !! p = Some d) paths docs.
Proof.
  revert docs. induction paths as [|p paths IH]; intros docs; cbn [listDocs].
  - split.
    + intros [= <-]. split; constructor.
    + intros [_ H]. by inversion H.
  - unfold getItem_doc. case_fault env (OpGetItem DocT p).
    { split; [done | intros [H _]; inversion H; congruence]. }
    destruct (docTable w !! p) as [d|] eqn:Hd.
    2: { split; [done | intros [_ H]; inversion H; congruence]. }
    destruct (listDocs env w paths) as [ds|e].
    + split.
      * intros [= <-]. destruct (proj1 (IH ds) eq_refl) as [Hf Hl].
        split; constructor; done.
      * intros [Hf Hl]. inversion Hf; subst. inversion Hl; subst.
        assert (Ok ds = Ok l') as [= ->] by (apply IH; done). congruence.
    + split; [done |]. intros [Hf Hl]. inversion Hf; subst. inversion Hl; subst.
      assert (@Err (list Doc) e = Ok l') by (apply IH; done). done.
Qed.

(** C1, as the code has it: with an empty query and no tags [ListDocs]
    fetches nothing and returns an empty result without error, whatever the
    document table holds; with a query and no tags it returns the records of
    the paths the text index matched, in the order of the matches, and it
    succeeds exactly when each of these fetches is accepted and finds a
    record. *)
Theorem ListDocs_no_tags
    (env : Env) (intersect : slice string → slice string → slice string) (w : World) :
  ListDocs env intersect w "" [] = Ok [] ∧
  ∀ query found,
    query ≠ "" → ti_Search env query = Ok found →
    ∀ docs,
      ListDocs env intersect w query [] = Ok docs ↔
      Forall (λ p, fault env (OpGetItem DocT p) = None) found ∧
      Forall2 (λ p d, docTable w !! p = Some d) found docs.
Proof.
  split; [reflexivity |].
  intros query found Hq Hs docs. unfold ListDocs.
  destruct (decide (query ≠ "")); [| done]. rewrite Hs.
  cbn [length]. destruct (decide (0 = 0)%nat); [| done]. apply listDocs_Ok.
Qed.

Lemma ListDocs_no_tags_witness :
  ListDocs indexed intersect_paths one_doc "hello" [] = Ok [mkDoc "notes/a" "" 5 5].
Proof.
  apply (ListDocs_no_tags indexed intersect_paths one_doc) with (found := ["notes/a"]).
  - discriminate.
  - vm_compute. reflexivity.
  - split; repeat constructor.
Defined.

(** C1, a case the design document gets wrong: a document is stored, and
    [ListDocs] with an empty query and no tags returns none. *)
Lemma ListDocs_empty_query_lists_nothing :
  docTable one_doc !! "notes/a" = Some (mkDoc "notes/a" "" 5 5) ∧
  ListDocs quiet intersect_paths one_doc "" [] = Ok [].
Proof. split; vm_compute; reflexivity. Qed.











(** *** Tagging *)

Lemma one_tag_keyed : tags_keyed one_tag.
Proof.
  intros t r H. cbn in H. apply lookup_singleton_Some in H as [<- <-]. reflexivity.
Qed.

Lemma one_tag_nodup : tags_nodup one_tag.
Proof.
  intros t r H. cbn in H. apply lookup_singleton_Some in H as [<- <-].
  cbn. repeat constructor. by intros ?%elem_of_nil.
Qed.

Lemma tagged_name (t path : string) (tag : Tag) :
  TagName tag = t → TagName (tagged t path tag) = t.
Proof. intros <-. unfold tagged. cbn. by destruct (decide (TagName tag = "")). Qed.

(** A tag that has no record stops [TagDoc] with the error of the fetch,
    when the fetch answers a missing item with an error. *)
Lemma TagDoc_absent_tag (env : Env) (path t : string) (rest : list string) (w : World) :
  fault env (OpGetItem TagT t) = None → tagTable w !! t = None →
  TagDoc env path (t :: rest) w = (Err (ErrDoesNotExist "item does not exist"), w).
Proof. intros Hf Ht. rewrite TagDoc_cons. unfold getItem_tag. by rewrite Hf, Ht. Qed.

Lemma TagDoc_with_cons
    (env : Env) (getTag : World → string → Result Tag)
    (path t : string) (rest : list string) (w : World) :
  TagDoc_with env getTag path (t :: rest) w =
  match getTag w t with
  | Err e => (Err e, w)
  | Ok tag =>
      if contains (elems (Paths tag)) path then TagDoc_with env getTag path rest w
      else
        match fault env OpMarshalMap with
        | Some m => (Err (ErrStore m), w)
        | None =>
            match fault env (OpPutItem TagT (TagName (tagged t path tag))) with
            | Some m => (Err (ErrStore m), w)
            | None =>
                TagDoc_with env getTag path rest
                  (set_tagTable (<[TagName (tagged t path tag) := tagged t path tag]>
                                   (tagTable w)) w)
            end
        end
  end.
Proof.
  cbn [TagDoc_with]. unfold bind at 1, lift.
  destruct (getTag w t) as [tag|e]; [| done].
  destruct (contains (elems (Paths tag)) path); [done |].
  unfold bind, MarshalMap, PutItem_tag, tagged, append.
  case_fault env OpMarshalMap; [done |].
  destruct (decide (TagName tag = "")); reduce_fields;
    match goal with |- context [fault env ?o] => case_fault env o end; done.
Qed.

Lemma TagDoc_with_getItem (env : Env) (path : string) (tags : list string) (w : World) :
  TagDoc_with env (getItem_tag env) path tags w = TagDoc env path tags w.
Proof.
  revert w. induction tags as [|t tags IH]; intros w; [done |].
  rewrite TagDoc_with_cons, TagDoc_cons.
  destruct (getItem_tag env w t) as [tag|e]; [| done].
  destruct (contains (elems (Paths tag)) path); [apply IH |].
  case_fault env OpMarshalMap; [done |].
  match goal with |- context [fault env ?o] => case_fault env o end; [done | apply IH].
Qed.

(** Whatever the fetch gave, the record [TagDoc] writes back carries the
    name of the tag asked for. *)
Lemma tagged_name_fetched (w : World) (t path : string) (r : Tag) :
  tags_keyed w →
  tagTable w !! t = Some r ∨ (tagTable w !! t = None ∧ r = zeroTag) →
  TagName (tagged t path r) = t.
Proof.
  intros Hk [Hr | [_ ->]]; [apply tagged_name; by apply Hk |].
  unfold tagged, zeroTag. cbn. by destruct (decide ("" = "")).
Qed.

(** An error of the fetch, of whatever kind, ends [TagDoc] with that error
    and nothing written for the tag. *)
Lemma TagDoc_with_fetch_error
    (env : Env) (getTag : World → string → Result Tag)
    (path t : string) (rest : list string) (w : World) (e : error) :
  getTag w t = Err e → TagDoc_with env getTag path (t :: rest) w = (Err e, w).
Proof. intros H. by rewrite TagDoc_with_cons, H. Qed.

Lemma getItem_tag_fetches (env : Env) : fetches_tags (getItem_tag env).
Proof. intros w t r H. apply getItem_tag_Ok in H as [_ H]. by left. Qed.

Lemma getItem_tag_empty_fetches (env : Env) : fetches_tags (getItem_tag_empty env).
Proof.
  intros w t r. unfold getItem_tag_empty.
  destruct (fault env (OpGetItem TagT t)); [done |].
  destruct (tagTable w !! t) as [r'|]; cbn; intros [= <-]; [by left | by right].
Qed.

Lemma TagDoc_with_invariant
    (env : Env) (getTag : World → string → Result Tag)
    (path : string) (tags : list string) (w : World) :
  fetches_tags getTag → tags_keyed w → tags_nodup w →
  tags_keyed (snd (TagDoc_with env getTag path tags w)) ∧
  tags_nodup (snd (TagDoc_with env getTag path tags w)).
Proof.
  intros Hfetch. revert w. induction tags as [|t rest IH]; intros w Hk Hn; [done |].
  rewrite TagDoc_with_cons.
  destruct (getTag w t) as [tag|e] eqn:Hget; [| done].
  pose proof (Hfetch _ _ _ Hget) as Hcase.
  destruct (contains (elems (Paths tag)) path) eqn:Hc; [by apply IH |].
  case_fault env OpMarshalMap; [done |].
  pose proof (tagged_name_fetched w t path tag Hk Hcase) as Hname. rewrite Hname.
  case_fault env (OpPutItem TagT t); [done |].
  apply IH.
  - intros u r. reduce_fields. destruct (decide (t = u)) as [<-|Hne].
    + rewrite lookup_insert_eq. by intros [= <-].
    + rewrite lookup_insert_ne by done. apply Hk.
  - intros u r. reduce_fields. destruct (decide (t = u)) as [<-|Hne].
    + rewrite lookup_insert_eq. intros [= <-]. cbn.
      apply NoDup_app. split; [| split].
      * destruct Hcase as [Hr | [_ ->]]; [by apply (Hn t) | constructor].
      * intros x Hx ->%list_elem_of_singleton. by apply contains_false in Hc.
      * apply NoDup_singleton.
    + rewrite lookup_insert_ne by done. apply Hn.
Qed.

(** The step of [TagDoc] on a tag fetched as the zero record. *)
Lemma TagDoc_unseen_tag_step
    (env : Env) (getTag : World → string → Result Tag)
    (path t : string) (rest : list string) (w : World) :
  getTag w t = Ok zeroTag →
  fault env OpMarshalMap = None →
  fault env (OpPutItem TagT t) = None →
  TagDoc_with env getTag path (t :: rest) w
  = TagDoc_with env getTag path rest
      (set_tagTable (<[t := mkTag t (Some [path])]> (tagTable w)) w).
Proof.
  intros Hget Hm Hput. rewrite TagDoc_with_cons, Hget.
  cbn. rewrite Hm. unfold tagged, zeroTag. cbn.
  destruct (decide ("" = "")); [| done]. by rewrite Hput.
Qed.



(** C7: on a tag table that lists no path twice in a record, any call of
    [TagDoc] leaves it so, whatever the fetch does with a missing tag, and
    [PutDoc] and [RemoveDoc] do not touch the tag table. Once
    [TagDoc path t] has returned no error, the record of [t] lists [path]
    exactly once, and a second call changes nothing and returns no error
    unless its fetch fails. On a tag without a record, fetched as an empty
    record, the first call writes the record with the path once. *)
Theorem TagDoc_idempotent (w : World) :
  tags_keyed w → tags_nodup w →
  (∀ env getTag path tags,
      fetches_tags getTag →
      tags_keyed (snd (TagDoc_with env getTag path tags w)) ∧
      tags_nodup (snd (TagDoc_with env getTag path tags w))) ∧
  (∀ env doc path,
      tagTable (snd (PutDoc env doc w)) = tagTable w ∧
      tagTable (snd (RemoveDoc env path w)) = tagTable w) ∧
  (∀ env1 env2 getTag1 getTag2 path t w1,
      fetches_tags getTag1 → fetches_tags getTag2 →
      TagDoc_with env1 getTag1 path [t] w = (Ok tt, w1) →
      (∃ r, tagTable w1 !! t = Some r ∧ occurrences path (elems (Paths r)) = 1%nat) ∧
      snd (TagDoc_with env2 getTag2 path [t] w1) = w1 ∧
      (∀ r', getTag2 w1 t = Ok r' →
             fst (TagDoc_with env2 getTag2 path [t] w1) = Ok tt)) ∧
  (∀ env getTag path t,
      tagTable w !! t = None → getTag w t = Ok zeroTag →
      fault env OpMarshalMap = None → fault env (OpPutItem TagT t) = None →
      ∃ w1, TagDoc_with env getTag path [t] w = (Ok tt, w1) ∧
            tagTable w1 !! t = Some (mkTag t (Some [path]))).
Proof.
  intros Hk Hn. split; [intros; by apply TagDoc_with_invariant |].
  split; [intros; split; [apply PutDoc_tagTable | apply RemoveDoc_tagTable] |].
  split.
  - intros env1 env2 getTag1 getTag2 path t w1 Hf1 Hf2 H1.
    assert (Hrec : ∃ r, tagTable w1 !! t = Some r ∧ path ∈ elems (Paths r)).
    { rewrite TagDoc_with_cons in H1.
      destruct (getTag1 w t) as [tag|e] eqn:Hget; [| done].
      pose proof (Hf1 _ _ _ Hget) as Hcase.
      destruct (contains (elems (Paths tag)) path) eqn:Hc.
      - inversion H1; subst. apply contains_true in Hc.
        destruct Hcase as [Hr | [_ ->]]; [by exists tag | by inversion Hc].
      - revert H1. case_fault env1 OpMarshalMap; [done |].
        rewrite (tagged_name_fetched w t path tag Hk Hcase).
        case_fault env1 (OpPutItem TagT t); [done |].
        intros [= <-]. exists (tagged t path tag). reduce_fields.
        rewrite lookup_insert_eq. split; [done |]. cbn.
        apply elem_of_app. right. by apply list_elem_of_singleton. }
    destruct Hrec as (r & Hr & Hin).
    assert (Hn1 : tags_nodup w1).
    { replace w1 with (snd (TagDoc_with env1 getTag1 path [t] w)) by (by rewrite H1).
      by apply TagDoc_with_invariant. }
    split; [exists r; split; [done | apply occurrences_NoDup; [by apply (Hn1 t) | done]] |].
    rewrite TagDoc_with_cons.
    destruct (getTag2 w1 t) as [r'|e] eqn:Hget2; [| done].
    assert (r' = r) as ->.
    { destruct (Hf2 _ _ _ Hget2) as [Hr' | [Hr' _]]; congruence. }
    apply contains_true in Hin. by rewrite Hin.
  - intros env getTag path t Ht Hget Hm Hput. eexists. split.
    + apply (TagDoc_unseen_tag_step env getTag path t [] w Hget Hm Hput).
    + reduce_fields. by rewrite lookup_insert_eq.
Qed.

Lemma one_doc_tags_keyed : tags_keyed one_doc.
Proof. intros t r H. cbn in H. by rewrite lookup_empty in H. Qed.

Lemma one_doc_tags_nodup : tags_nodup one_doc.
Proof. intros t r H. cbn in H. by rewrite lookup_empty in H. Qed.

Lemma TagDoc_idempotent_witness :
  (∃ w1, TagDoc_with quiet (getItem_tag_empty quiet) "notes/a" ["todo"] one_doc = (Ok tt, w1) ∧
         tagTable w1 !! "todo" = Some (mkTag "todo" (Some ["notes/a"])) ∧
         TagDoc_with quiet (getItem_tag_empty quiet) "notes/a" ["todo"] w1 = (Ok tt, w1)) ∧
  snd (TagDoc quiet "notes/a" ["todo"] (snd (TagDoc quiet "notes/a" ["todo"] one_tag)))
  = snd (TagDoc quiet "notes/a" ["todo"] one_tag).
Proof.
  split.
  - destruct (TagDoc_idempotent one_doc one_doc_tags_keyed one_doc_tags_nodup)
      as (_ & _ & Htwice & Hfresh).
    destruct (Hfresh quiet (getItem_tag_empty quiet) "notes/a" "todo")
      as (w1 & H1 & Hrec); try (vm_compute; reflexivity).
    exists w1. split; [exact H1 |]. split; [exact Hrec |].
    destruct (Htwice quiet quiet (getItem_tag_empty quiet) (getItem_tag_empty quiet)
                "notes/a" "todo" w1 (getItem_tag_empty_fetches quiet)
                (getItem_tag_empty_fetches quiet) H1) as (_ & Hsame & Hok).
    rewrite (surjective_pairing (TagDoc_with _ _ _ _ w1)), Hsame. f_equal.
    apply (Hok (mkTag "todo" (Some ["notes/a"]))).
    unfold getItem_tag_empty. cbn [fault quiet]. by rewrite Hrec.
  - destruct (TagDoc_idempotent one_tag one_tag_keyed one_tag_nodup) as (_ & _ & H & _).
    rewrite <- !TagDoc_with_getItem.
    destruct (H quiet quiet (getItem_tag quiet) (getItem_tag quiet) "notes/a" "todo"
                (snd (TagDoc_with quiet (getItem_tag quiet) "notes/a" ["todo"] one_tag))
                (getItem_tag_fetches quiet) (getItem_tag_fetches quiet))
      as (_ & Hsame & _); [vm_compute; reflexivity | exact Hsame].
Defined.

(** ** Further properties of the coordinator *)

(** *** [PutDoc]: what a failure leaves behind *)

(** What any call of [PutDoc] does to the file store: nothing, the blob
    written, or the blob written and removed again. *)
Lemma PutDoc_fs (env : Env) (doc : Doc) (w : World) :
  fs (snd (PutDoc env doc w)) = fs w ∨
  fs (snd (PutDoc env doc w)) = <[Path doc := Content doc]> (fs w) ∨
  fs (snd (PutDoc env doc w)) = delete (Path doc) (<[Path doc := Content doc]> (fs w)).
Proof.
  destruct (decide (Path doc = "")) as [Hp|Hp].
  { rewrite PutDoc_no_path by done. by left. }
  rewrite PutDoc_eq by done.
  destruct (stampCreated env doc w) as [[doc1|e] w1] eqn:Hs.
  - destruct (stampCreated_Ok _ _ _ _ _ Hs) as (_ & _ & _ & _ & _ & HF).
    unfold writeOutcome. rewrite HF.
    case_fault env (OpWriteFile (Path doc)); [by left |].
    case_fault env OpMarshalMap; [right; by left |].
    case_fault env (OpPutItem DocT (Path doc)); [| right; by left].
    case_fault env (OpRemoveFile (Path doc)); [right; by left | right; by right].
  - rewrite stampCreated_eq in Hs. left.
    destruct (GetDoc env w (Path doc)); [done |].
    destruct (CheckDoesNotExist e0); by inversion Hs.
Qed.

(** X1: a call of [PutDoc] that returns an error has written no record:
    the document table and the tag table are as before. *)
Theorem PutDoc_error_keeps_tables (env : Env) (doc : Doc) (w w' : World) (e : error) :
  PutDoc env doc w = (Err e, w') →
  docTable w' = docTable w ∧ tagTable w' = tagTable w.
Proof.
  intros H. split.
  2: { replace w' with (snd (PutDoc env doc w)) by (by rewrite H). apply PutDoc_tagTable. }
  revert H. destruct (decide (Path doc = "")) as [Hp|Hp].
  { rewrite PutDoc_no_path by done. by intros [= _ <-]. }
  rewrite PutDoc_eq by done.
  destruct (stampCreated env doc w) as [[doc1|e1] w1] eqn:Hs.
  - destruct (stampCreated_Ok _ _ _ _ _ Hs) as (_ & _ & _ & HD & _).
    unfold writeOutcome.
    case_fault env (OpWriteFile (Path doc)); [by intros [= _ <-] |].
    case_fault env OpMarshalMap; [by intros [= _ <-] |].
    case_fault env (OpPutItem DocT (Path doc)); [| done].
    case_fault env (OpRemoveFile (Path doc)); by intros [= _ <-].
  - rewrite stampCreated_eq in Hs.
    destruct (GetDoc env w (Path doc)); [done |].
    destruct (CheckDoesNotExist e0); inversion Hs; subst. by intros [= _ <-].
Qed.

Lemma PutDoc_error_keeps_tables_witness :
  docTable (snd (PutDoc both_down note one_doc)) = docTable one_doc ∧
  tagTable (snd (PutDoc both_down note one_doc)) = tagTable one_doc.
Proof.
  apply (PutDoc_error_keeps_tables both_down note one_doc _
           (ErrWrap (ErrStore "disk: read-only") "cleanup failed for file: notes/a")).
  vm_compute. reflexivity.
Defined.

(** X2: whatever its outcome, [PutDoc] leaves every other path alone, in
    the document table and in the file store. *)
Theorem PutDoc_other_paths (env : Env) (doc : Doc) (w : World) (p : string) :
  p ≠ Path doc →
  docTable (snd (PutDoc env doc w)) !! p = docTable w !! p ∧
  fs (snd (PutDoc env doc w)) !! p = fs w !! p.
Proof.
  intros Hne. split.
  - destruct (PutDoc_docTable env doc w) as [-> | (rec & _ & _ & ->)]; [done |].
    by rewrite lookup_insert_ne.
  - destruct (PutDoc_fs env doc w) as [-> | [-> | ->]]; [done | |].
    + by rewrite lookup_insert_ne.
    + by rewrite lookup_delete_ne, lookup_insert_ne.
Qed.

Lemma PutDoc_other_paths_witness :
  docTable (snd (PutDoc quiet note two_docs)) !! "notes/b" = Some (mkDoc "notes/b" "" 6 6) ∧
  fs (snd (PutDoc quiet note two_docs)) !! "notes/b" = Some "other".
Proof.
  destruct (PutDoc_other_paths quiet note two_docs "notes/b") as [-> ->];
    [discriminate |].
  split; vm_compute; reflexivity.
Defined.

(** X3: when the existence check of [PutDoc] fails with anything but
    does-not-exist, and when the file store refuses the write, [PutDoc]
    returns the wrapped error and has written nothing to either store. *)
Theorem PutDoc_aborts_before_writing (env : Env) (doc : Doc) (w : World) :
  Path doc ≠ "" →
  (∀ e, GetDoc env w (Path doc) = Err e → CheckDoesNotExist e = false →
        PutDoc env doc w = (Err (ErrWrap e "could not verify existing file"), w)) ∧
  (∀ m, (∀ e, GetDoc env w (Path doc) = Err e → CheckDoesNotExist e = true) →
        fault env (OpWriteFile (Path doc)) = Some m →
        fst (PutDoc env doc w)
        = Err (ErrWrap (ErrStore m) "failed to write doc to file store") ∧
        docTable (snd (PutDoc env doc w)) = docTable w ∧
        fs (snd (PutDoc env doc w)) = fs w).
Proof.
  intros Hp. split.
  - intros e He Hc. rewrite PutDoc_eq, stampCreated_eq, He, Hc by done. done.
  - intros m Hget Hw. rewrite PutDoc_eq by done.
    destruct (stampCreated env doc w) as [[doc1|e] w1] eqn:Hs.
    + destruct (stampCreated_Ok _ _ _ _ _ Hs) as (_ & _ & _ & HD & _ & HF).
      unfold writeOutcome. rewrite Hw. by reduce_fields.
    + rewrite stampCreated_eq in Hs.
      destruct (GetDoc env w (Path doc)) as [d|e']; [done |].
      by rewrite (Hget e' eq_refl) in Hs.
Qed.

Lemma PutDoc_aborts_before_writing_witness :
  PutDoc dynamo_unreadable note one_doc
  = (Err (ErrWrap (ErrStore "dynamo: throttled") "could not verify existing file"), one_doc) ∧
  fs (snd (PutDoc disk_full note one_doc)) = fs one_doc.
Proof.
  split.
  - apply (PutDoc_aborts_before_writing dynamo_unreadable note one_doc);
      [discriminate | vm_compute; reflexivity | reflexivity].
  - apply (PutDoc_aborts_before_writing disk_full note one_doc) with (m := "disk: full");
      [discriminate | | vm_compute; reflexivity].
    intros e H. vm_compute in H. discriminate H.
Defined.

(** X4: when marshalling the record fails, after the content write, no
    rollback runs: [PutDoc] returns the wrapped error, the new content stays
    in the file store and the document table is as before. *)
Theorem PutDoc_marshal_failure_keeps_blob (env : Env) (doc : Doc) (w : World) (m : string) :
  Path doc ≠ "" →
  (∀ e, GetDoc env w (Path doc) = Err e → CheckDoesNotExist e = true) →
  fault env (OpWriteFile (Path doc)) = None →
  fault env OpMarshalMap = Some m →
  fst (PutDoc env doc w) = Err (ErrWrap (ErrStore m) "failed to marshal doc for dynamo") ∧
  fs (snd (PutDoc env doc w)) = <[Path doc := Content doc]> (fs w) ∧
  docTable (snd (PutDoc env doc w)) = docTable w.
Proof.
  intros Hp Hget Hw Hm. rewrite PutDoc_eq by done.
  destruct (stampCreated env doc w) as [[doc1|e] w1] eqn:Hs.
  - destruct (stampCreated_Ok _ _ _ _ _ Hs) as (_ & _ & _ & HD & _ & HF).
    unfold writeOutcome. rewrite Hw, Hm. reduce_fields. by rewrite HF.
  - rewrite stampCreated_eq in Hs.
    destruct (GetDoc env w (Path doc)) as [d|e']; [done |].
    by rewrite (Hget e' eq_refl) in Hs.
Qed.

Lemma PutDoc_marshal_failure_keeps_blob_witness :
  fs (snd (PutDoc marshal_broken note one_doc)) !! "notes/a" = Some "hello" ∧
  docTable (snd (PutDoc marshal_broken note one_doc)) = docTable one_doc.
Proof.
  destruct (PutDoc_marshal_failure_keeps_blob marshal_broken note one_doc
              "marshal: unsupported") as (_ & -> & ->);
    try (vm_compute; reflexivity); [discriminate | |].
  - intros e H. vm_compute in H. discriminate H.
  - split; vm_compute; reflexivity.
Defined.

(** X5: an update whose metadata write is refused loses the content that
    was stored before: the rollback removes the blob of the path, the
    record stays, and [GetDoc] of the path then fails with the
    does-not-exist error of the file store. *)
Theorem PutDoc_failed_update_loses_content
    (env env' : Env) (doc old : Doc) (w : World) (m : string) :
  Path doc ≠ "" →
  GetDoc env w (Path doc) = Ok old →
  fault env (OpWriteFile (Path doc)) = None →
  fault env OpMarshalMap = None →
  fault env (OpPutItem DocT (Path doc)) = Some m →
  fault env (OpRemoveFile (Path doc)) = None →
  fs w !! Path doc = Some (Content old) ∧
  docTable (snd (PutDoc env doc w)) !! Path doc = docTable w !! Path doc ∧
  is_Some (docTable w !! Path doc) ∧
  fs (snd (PutDoc env doc w)) !! Path doc = None ∧
  (fault env' (OpGetItem DocT (Path doc)) = None →
   fault env' (OpReadFile (Path doc)) = None →
   GetDoc env' (snd (PutDoc env doc w)) (Path doc)
   = Err (ErrDoesNotExist "file does not exist")).
Proof.
  intros Hp Hget Hw Hm Hput Hrm.
  pose proof Hget as Hold. apply GetDoc_Ok in Hold as (_ & _ & rec & c & Hrec & Hc & ->).
  assert (HD : docTable (snd (PutDoc env doc w)) = docTable w ∧
               fs (snd (PutDoc env doc w)) !! Path doc = None).
  { rewrite PutDoc_eq, stampCreated_eq, Hget by done.
    unfold writeOutcome. rewrite Hw, Hm, Hput, Hrm. reduce_fields.
    by rewrite lookup_delete_eq. }
  destruct HD as [HD HF]. rewrite HD. repeat split; try done.
  intros Hg Hr. unfold GetDoc, getItem_doc, fs_ReadFile. by rewrite Hg, HD, Hrec, Hr, HF.
Qed.

Lemma PutDoc_failed_update_loses_content_witness :
  fs one_doc !! "notes/a" = Some "old" ∧
  fs (snd (PutDoc dynamo_down note one_doc)) !! "notes/a" = None ∧
  GetDoc quiet (snd (PutDoc dynamo_down note one_doc)) "notes/a"
  = Err (ErrDoesNotExist "file does not exist").
Proof.
  destruct (PutDoc_failed_update_loses_content dynamo_down quiet note
              (mkDoc "notes/a" "old" 5 5) one_doc "dynamo: unavailable")
    as (H1 & _ & _ & H2 & H3); try (vm_compute; reflexivity); [discriminate |].
  split; [exact H1 |]. split; [exact H2 |]. apply H3; reflexivity.
Defined.

(** *** [GetDoc] and [RemoveDoc] *)

(** X6: [GetDoc] reports does-not-exist exactly when the fetch of the record
    is accepted and either there is no record, or the read of the blob is
    accepted and there is no blob; a record without its blob is reported
    like a document that was never stored. *)
Theorem GetDoc_does_not_exist (env : Env) (w : World) (path : string) :
  (∃ e, GetDoc env w path = Err e ∧ CheckDoesNotExist e = true) ↔
  fault env (OpGetItem DocT path) = None ∧
  (docTable w !! path = None ∨
   (fault env (OpReadFile path) = None ∧ fs w !! path = None)).
Proof.
  unfold GetDoc, getItem_doc, fs_ReadFile.
  case_fault env (OpGetItem DocT path).
  { split; [by intros (e & [= <-] & ?) | by intros [? _]]. }
  destruct (docTable w !! path) as [rec|].
  2: { split; [intros _; split; [done | by left] | intros _; by eexists]. }
  case_fault env (OpReadFile path).
  { split; [by intros (e & [= <-] & ?) | by intros [_ [? | [? _]]]]. }
  destruct (fs w !! path) as [c|].
  - split; [by intros (e & ? & _) | by intros [_ [? | [_ ?]]]].
  - split; [intros _; split; [done | by right] | intros _; by eexists].
Qed.

Lemma GetDoc_does_not_exist_witness :
  ∃ e, GetDoc quiet lost_blob "notes/a" = Err e ∧ CheckDoesNotExist e = true.
Proof.
  apply (GetDoc_does_not_exist quiet lost_blob "notes/a").
  split; [reflexivity |]. right. split; vm_compute; reflexivity.
Defined.

(** X7: after a successful [RemoveDoc] the path has neither blob nor
    record, and [GetDoc] of it fails, with does-not-exist unless the fetch
    is refused. *)
Theorem RemoveDoc_then_GetDoc (env env' : Env) (path : string) (w w' : World) :
  RemoveDoc env path w = (Ok tt, w') →
  docTable w' !! path = None ∧ fs w' !! path = None ∧
  ∃ e, GetDoc env' w' path = Err e ∧
       (fault env' (OpGetItem DocT path) = None → CheckDoesNotExist e = true).
Proof.
  rewrite RemoveDoc_eq.
  destruct (fs_RemoveFile_cases env path w) as [[e ->] | [_ ->]]; [done |].
  case_fault env OpMakeKey; [done |].
  case_fault env (OpDeleteItem DocT path); [done |].
  intros [= <-]. reduce_fields. rewrite !lookup_delete_eq. repeat split.
  unfold GetDoc, getItem_doc. reduce_fields. rewrite lookup_delete_eq.
  case_fault env' (OpGetItem DocT path); eexists; split; done.
Qed.

Lemma RemoveDoc_then_GetDoc_witness :
  docTable (snd (RemoveDoc quiet "notes/a" one_doc)) !! "notes/a" = None ∧
  fs (snd (RemoveDoc quiet "notes/a" one_doc)) !! "notes/a" = None.
Proof.
  destruct (RemoveDoc_then_GetDoc quiet quiet "notes/a" one_doc
              (snd (RemoveDoc quiet "notes/a" one_doc))) as (H1 & H2 & _);
    [vm_compute; reflexivity |].
  split; [exact H1 | exact H2].
Defined.

(** X8: a call of [RemoveDoc] that returns an error has deleted no record;
    either nothing changed, or the blob of the path is gone and its record
    is still there. *)
Theorem RemoveDoc_error_keeps_record (env : Env) (path : string) (w w' : World) (e : error) :
  RemoveDoc env path w = (Err e, w') →
  docTable w' = docTable w ∧
  (w' = w ∨ (is_Some (fs w !! path) ∧ fs w' = delete path (fs w))).
Proof.
  rewrite RemoveDoc_eq.
  destruct (fs_RemoveFile_cases env path w) as [[e1 ->] | [Hin ->]].
  { intros [= _ <-]. split; [done | by left]. }
  case_fault env OpMakeKey; [intros [= _ <-]; split; [done | by right] |].
  case_fault env (OpDeleteItem DocT path); [| done].
  intros [= _ <-]. split; [done | by right].
Qed.

Lemma RemoveDoc_error_keeps_record_witness :
  docTable (snd (RemoveDoc dynamo_down "notes/a" one_doc)) = docTable one_doc ∧
  fs (snd (RemoveDoc dynamo_down "notes/a" one_doc)) !! "notes/a" = None.
Proof.
  destruct (RemoveDoc_error_keeps_record dynamo_down "notes/a" one_doc
              (snd (RemoveDoc dynamo_down "notes/a" one_doc))
              (ErrWrap (ErrStore "dynamo: unavailable") "failed to delete doc from dynamo"))
    as [HD _]; [vm_compute; reflexivity |].
  split; [exact HD | vm_compute; reflexivity].
Defined.

(** X9: [RemoveDoc] of a path that has no blob always fails and changes
    nothing, whatever the services do; a record whose blob is gone (lost, or
    removed by an earlier call that then failed) can no longer be deleted. *)
Theorem RemoveDoc_without_blob (env : Env) (path : string) (w : World) :
  fs w !! path = None →
  ∃ e, RemoveDoc env path w
       = (Err (ErrWrap e "failed to remove doc from file store"), w).
Proof.
  intros Hblob. rewrite RemoveDoc_eq. unfold fs_RemoveFile. rewrite Hblob.
  case_fault env (OpRemoveFile path); by eexists.
Qed.

Lemma RemoveDoc_without_blob_witness :
  ∃ e, RemoveDoc quiet "notes/a" (snd (RemoveDoc dynamo_down "notes/a" one_doc))
       = (Err (ErrWrap e "failed to remove doc from file store"),
          snd (RemoveDoc dynamo_down "notes/a" one_doc)).
Proof.
  apply (RemoveDoc_without_blob quiet "notes/a"
           (snd (RemoveDoc dynamo_down "notes/a" one_doc))).
  vm_compute. reflexivity.
Defined.

(** X10: whatever its outcome, [RemoveDoc] leaves every other path alone,
    in the document table and in the file store. *)
Theorem RemoveDoc_other_paths (env : Env) (path p : string) (w : World) :
  p ≠ path →
  docTable (snd (RemoveDoc env path w)) !! p = docTable w !! p ∧
  fs (snd (RemoveDoc env path w)) !! p = fs w !! p.
Proof.
  intros Hne. rewrite RemoveDoc_eq.
  destruct (fs_RemoveFile_cases env path w) as [[e ->] | [_ ->]]; [done |].
  case_fault env OpMakeKey; [by rewrite lookup_delete_ne |].
  case_fault env (OpDeleteItem DocT path); by rewrite !lookup_delete_ne.
Qed.

Lemma RemoveDoc_other_paths_witness :
  docTable (snd (RemoveDoc quiet "notes/a" two_docs)) !! "notes/b"
  = Some (mkDoc "notes/b" "" 6 6) ∧
  fs (snd (RemoveDoc quiet "notes/a" two_docs)) !! "notes/b" = Some "other".
Proof.
  destruct (RemoveDoc_other_paths quiet "notes/a" "notes/b" two_docs) as [-> ->];
    [discriminate |].
  split; vm_compute; reflexivity.
Defined.

(** *** [TagDoc] *)

Lemma tagged_keyed (w : World) (t path : string) (tag : Tag) :
  tags_keyed w → tagTable w !! t = Some tag →
  tags_keyed (set_tagTable (<[t := tagged t path tag]> (tagTable w)) w).
Proof.
  intros Hk Ht u r. reduce_fields. destruct (decide (t = u)) as [<-|Hne].
  - rewrite lookup_insert_eq. intros [= <-]. apply tagged_name. by apply Hk.
  - rewrite lookup_insert_ne by done. apply Hk.
Qed.

(** The record of a tag only grows at its end under [TagDoc], and the
    record of a tag that is not named stays as it is. *)
Lemma TagDoc_grows (env : Env) (path : string) (tags : list string) (w : World)
    (u : string) (r : Tag) :
  tags_keyed w → tagTable w !! u = Some r →
  ∃ r', tagTable (snd (TagDoc env path tags w)) !! u = Some r' ∧
        elems (Paths r) `prefix_of` elems (Paths r') ∧
        (u ∉ tags → r' = r).
Proof.
  revert w r. induction tags as [|t rest IH]; intros w r Hk Hu.
  { exists r. by repeat split. }
  assert (Hsame : ∃ r', tagTable w !! u = Some r' ∧
                        elems (Paths r) `prefix_of` elems (Paths r') ∧
                        (u ∉ t :: rest → r' = r)) by (exists r; by repeat split).
  rewrite TagDoc_cons.
  destruct (getItem_tag env w t) as [tag|e] eqn:Hget; [| done].
  apply getItem_tag_Ok in Hget as [_ Ht].
  destruct (contains (elems (Paths tag)) path).
  { destruct (IH w r Hk Hu) as (r' & Hr' & Hpre & Hout).
    exists r'. repeat split; try done. intros Hnot. apply Hout.
    intros Hin. apply Hnot. by right. }
  case_fault env OpMarshalMap; [done |].
  rewrite (tagged_name t path tag (Hk _ _ Ht)).
  case_fault env (OpPutItem TagT t); [done |].
  pose proof (tagged_keyed w t path tag Hk Ht) as Hk1.
  destruct (decide (t = u)) as [<-|Hne].
  - assert (r = tag) as -> by congruence.
    destruct (IH _ (tagged t path tag) Hk1) as (r' & Hr' & Hpre & _).
    { reduce_fields. by rewrite lookup_insert_eq. }
    exists r'. split; [done |]. split.
    + etrans; [| exact Hpre]. cbn. by apply prefix_app_r.
    + intros Hnot. exfalso. apply Hnot. by left.
  - destruct (IH _ r Hk1) as (r' & Hr' & Hpre & Hout).
    { reduce_fields. by rewrite lookup_insert_ne. }
    exists r'. repeat split; try done. intros Hnot. apply Hout.
    intros Hin. apply Hnot. by right.
Qed.

(** X11: whatever its outcome, [TagDoc] never removes a path from a tag
    record (the old path list is a prefix of the new one), never changes
    the record of a tag that was not named, and never touches a document
    record or a blob. *)
Theorem TagDoc_only_adds (env : Env) (path : string) (tags : list string) (w : World) :
  tags_keyed w →
  (∀ u r, tagTable w !! u = Some r →
          ∃ r', tagTable (snd (TagDoc env path tags w)) !! u = Some r' ∧
                elems (Paths r) `prefix_of` elems (Paths r') ∧
                (u ∉ tags → r' = r)) ∧
  docTable (snd (TagDoc env path tags w)) = docTable w ∧
  fs (snd (TagDoc env path tags w)) = fs w.
Proof.
  intros Hk. split; [intros u r Hu; by apply TagDoc_grows |].
  apply TagDoc_frame.
Qed.

Lemma two_docs_keyed : tags_keyed two_docs.
Proof.
  intros t r H. cbn in H.
  apply lookup_insert_Some in H as [[<- <-] | [_ H]]; [done |].
  by apply lookup_singleton_Some in H as [<- <-].
Qed.

Lemma TagDoc_only_adds_witness :
  tagTable (snd (TagDoc quiet "notes/a" ["draft"] two_docs)) !! "todo"
  = Some (mkTag "todo" (Some ["notes/a"; "notes/b"])) ∧
  tagTable (snd (TagDoc quiet "notes/a" ["draft"] two_docs)) !! "draft"
  = Some (mkTag "draft" (Some ["notes/b"; "notes/a"])).
Proof.
  destruct (TagDoc_only_adds quiet "notes/a" ["draft"] two_docs two_docs_keyed)
    as (Hrec & _ & _).
  split; [| vm_compute; reflexivity].
  destruct (Hrec "todo" (mkTag "todo" (Some ["notes/a"; "notes/b"])))
    as (r' & Hr' & _ & Hout); [vm_compute; reflexivity |].
  rewrite Hr'. f_equal. apply Hout.
  intros H. apply list_elem_of_singleton in H. discriminate H.
Defined.

(** X12: after a call of [TagDoc] that returns no error, every tag that was
    named has a record that lists the path. *)
Theorem TagDoc_success_tags_all
    (env : Env) (path : string) (tags : list string) (w w' : World) :
  tags_keyed w →
  TagDoc env path tags w = (Ok tt, w') →
  ∀ t, t ∈ tags → ∃ r, tagTable w' !! t = Some r ∧ path ∈ elems (Paths r).
Proof.
  revert w. induction tags as [|u rest IH]; intros w Hk H t Hin; [by inversion Hin |].
  rewrite TagDoc_cons in H.
  destruct (getItem_tag env w u) as [tag|e] eqn:Hget; [| done].
  apply getItem_tag_Ok in Hget as [_ Hu].
  destruct (contains (elems (Paths tag)) path) eqn:Hc.
  - apply elem_of_cons in Hin as [-> | Hin]; [| by apply (IH w)].
    destruct (TagDoc_grows env path rest w u tag Hk Hu) as (r' & Hr' & Hpre & _).
    rewrite H in Hr'. exists r'. split; [done |].
    apply contains_true in Hc. destruct Hpre as [k ->]. apply elem_of_app. by left.
  - revert H. case_fault env OpMarshalMap; [done |].
    rewrite (tagged_name u path tag (Hk _ _ Hu)).
    case_fault env (OpPutItem TagT u); [done |]. intros H.
    pose proof (tagged_keyed w u path tag Hk Hu) as Hk1.
    apply elem_of_cons in Hin as [-> | Hin]; [| by apply (IH _ Hk1 H)].
    destruct (TagDoc_grows env path rest _ u (tagged u path tag) Hk1)
      as (r' & Hr' & Hpre & _).
    { reduce_fields. by rewrite lookup_insert_eq. }
    cbv [set_tagTable] in Hr'. rewrite H in Hr'. exists r'. split; [done |].
    destruct Hpre as [k ->]. cbn. rewrite !elem_of_app. left. right.
    by apply list_elem_of_singleton.
Qed.

Lemma TagDoc_success_tags_all_witness :
  ∃ r, tagTable (snd (TagDoc quiet "notes/a" ["todo"; "draft"] two_docs)) !! "draft" = Some r ∧
       "notes/a" ∈ elems (Paths r).
Proof.
  apply (TagDoc_success_tags_all quiet "notes/a" ["todo"; "draft"] two_docs _ two_docs_keyed);
    [vm_compute; reflexivity |].
  right. left.
Defined.

(** X13: [TagDoc] stops at the first tag whose fetch fails and keeps what
    it wrote before: with the path added to the first tag and the fetch of
    the second failing, the error of that fetch comes back and the record
    of the first tag lists the path. *)
Theorem TagDoc_keeps_earlier_tags
    (env : Env) (path t1 t2 : string) (rest : list string) (r1 : Tag) (w : World) (e : error) :
  tags_keyed w →
  t1 ≠ t2 →
  getItem_tag env w t1 = Ok r1 →
  path ∉ elems (Paths r1) →
  fault env OpMarshalMap = None →
  fault env (OpPutItem TagT t1) = None →
  getItem_tag env w t2 = Err e →
  TagDoc env path (t1 :: t2 :: rest) w
  = (Err e,
     set_tagTable (<[t1 := mkTag t1 (Some (elems (Paths r1) ++ [path]))]> (tagTable w)) w).
Proof.
  intros Hk Hne Hget Hnot Hm Hput Herr.
  rewrite TagDoc_cons, Hget. apply contains_false in Hnot. rewrite Hnot, Hm.
  apply getItem_tag_Ok in Hget as [_ Ht1].
  pose proof (tagged_name t1 path r1 (Hk _ _ Ht1)) as Hname.
  rewrite Hname, Hput, TagDoc_cons.
  assert (Hsame : getItem_tag env
            (set_tagTable (<[t1 := tagged t1 path r1]> (tagTable w)) w) t2 = Err e).
  { revert Herr. unfold getItem_tag. reduce_fields. by rewrite lookup_insert_ne. }
  rewrite Hsame. do 3 f_equal. unfold tagged in *. cbn in Hname. by rewrite Hname.
Qed.

Lemma TagDoc_keeps_earlier_tags_witness :
  TagDoc later_unreadable "notes/a" ["draft"; "later"] two_docs
  = (Err (ErrStore "dynamo: throttled"),
     set_tagTable (<["draft" := mkTag "draft" (Some ["notes/b"; "notes/a"])]>
                     (tagTable two_docs)) two_docs).
Proof.
  apply (TagDoc_keeps_earlier_tags later_unreadable "notes/a" "draft" "later" []
           (mkTag "draft" (Some ["notes/b"])) two_docs);
    try (vm_compute; reflexivity); [exact two_docs_keyed | discriminate |].
  cbn. intros H. apply list_elem_of_singleton in H. discriminate H.
Defined.

(** X14: [TagDoc] never looks at the document table or at the file store:
    on two worlds with the same tag table it returns the same result and
    leaves the same tag table. It tags a path whether or not a document is
    stored under it. *)
Theorem TagDoc_ignores_documents
    (env : Env) (path : string) (tags : list string) (w1 w2 : World) :
  tagTable w1 = tagTable w2 →
  fst (TagDoc env path tags w1) = fst (TagDoc env path tags w2) ∧
  tagTable (snd (TagDoc env path tags w1)) = tagTable (snd (TagDoc env path tags w2)).
Proof.
  revert w1 w2. induction tags as [|t rest IH]; intros w1 w2 Heq; [done |].
  rewrite !TagDoc_cons. unfold getItem_tag. rewrite Heq.
  case_fault env (OpGetItem TagT t); [done |].
  destruct (tagTable w2 !! t) as [tag|]; [| done].
  destruct (contains (elems (Paths tag)) path); [by apply IH |].
  case_fault env OpMarshalMap; [done |].
  match goal with |- context [fault env ?o] => case_fault env o end; [done |].
  apply IH. by reduce_fields.
Qed.

Lemma TagDoc_ignores_documents_witness :
  fst (TagDoc quiet "notes/b" ["todo"; "draft"] two_docs)
  = fst (TagDoc quiet "notes/b" ["todo"; "draft"] (set_fs ∅ (set_docTable ∅ two_docs))) ∧
  tagTable (snd (TagDoc quiet "notes/b" ["todo"; "draft"] two_docs))
  = tagTable (snd (TagDoc quiet "notes/b" ["todo"; "draft"]
                     (set_fs ∅ (set_docTable ∅ two_docs)))).
Proof.
  apply (TagDoc_ignores_documents quiet "notes/b" ["todo"; "draft"] two_docs
           (set_fs ∅ (set_docTable ∅ two_docs))).
  reflexivity.
Defined.

(** *** [ListDocs] *)

Lemma listDocs_absent (env : Env) (w : World) (paths : list string) (p : string) :
  p ∈ paths → docTable w !! p = None → ∃ e, listDocs env w paths = Err e.
Proof.
  intros Hin Hp. destruct (listDocs env w paths) as [docs|e] eqn:H; [| by eexists].
  apply listDocs_Ok in H as [_ H]. exfalso.
  induction H as [|q d paths docs Hq _ IH]; [by inversion Hin |].
  apply elem_of_cons in Hin as [-> | Hin]; [congruence | by apply IH].
Qed.

Lemma listDocs_records (env : Env) (w : World) (paths : list string) (docs : list Doc) :
  listDocs env w paths = Ok docs →
  ∀ d, d ∈ docs → ∃ p, p ∈ paths ∧ docTable w !! p = Some d.
Proof.
  intros H. apply listDocs_Ok in H as [_ H].
  induction H as [|q d' paths docs Hq _ IH]; intros d Hd; [by inversion Hd |].
  apply elem_of_cons in Hd as [-> | Hd].
  - exists q. split; [by left | done].
  - destruct (IH d Hd) as (p & Hp & Hrec). exists p. split; [by right | done].
Qed.

(** X15: with a query and tags, [ListDocs] returns the documents of the
    tags whose path the text index matched, in the order of the tagged
    documents; an empty match list gives an empty result. *)
Theorem ListDocs_query_and_tags
    (env : Env) (intersect : slice string → slice string → slice string) (w : World)
    (query : string) (tags found : list string) (tagged : list Doc) :
  query ≠ "" → tags ≠ [] →
  ti_Search env query = Ok found →
  listTaggedDocs env intersect w tags = Ok tagged →
  ListDocs env intersect w query tags = Ok (filter (λ d, Path d ∈ found) tagged).
Proof.
  intros Hq Ht Hs Htag. unfold ListDocs.
  destruct (decide (query ≠ "")); [| done]. rewrite Hs.
  destruct (decide (length tags = 0%nat)) as [Hl|_]; [by destruct tags |].
  rewrite Htag. destruct (decide (query = "")); [done |].
  destruct (decide (0 < length found)%nat) as [Hpos|Hzero].
  - f_equal. apply list_filter_iff. intros d. apply contains_true.
  - destruct found; [| cbn in Hzero; lia]. f_equal. clear Htag.
    induction tagged as [|d tagged IH]; [done |].
    rewrite filter_cons. destruct (decide (Path d ∈ [])) as [Hin|_]; [by inversion Hin | done].
Qed.

Lemma ListDocs_query_and_tags_witness :
  ListDocs indexed intersect_paths two_docs "hello" ["todo"]
  = Ok [mkDoc "notes/a" "" 5 5].
Proof.
  rewrite (ListDocs_query_and_tags indexed intersect_paths two_docs "hello" ["todo"]
             ["notes/a"] [mkDoc "notes/a" "" 5 5; mkDoc "notes/b" "" 6 6]);
    try discriminate; vm_compute; reflexivity.
Defined.

(** X16: a tag record that lists a path without a document record makes
    every [ListDocs] call with that single tag fail; after a document is
    removed, listing by a tag it still carries is an error. *)
Theorem ListDocs_stale_tagged_path
    (env : Env) (intersect : slice string → slice string → slice string) (w : World)
    (query t p : string) (r : Tag) :
  tagTable w !! t = Some r → p ∈ elems (Paths r) → docTable w !! p = None →
  ∃ e, ListDocs env intersect w query [t] = Err e.
Proof.
  intros Hr Hin Hp. unfold ListDocs.
  destruct (if decide (query ≠ "") then ti_Search env query else Ok [])
    as [found|e]; [| by eexists].
  cbn [length]. destruct (decide (1 = 0)%nat); [done |].
  unfold listTaggedDocs. cbn [tagPaths]. unfold getItem_tag.
  case_fault env (OpGetItem TagT t); [by eexists |].
  rewrite Hr. cbn [is_nil].
  destruct (listDocs_absent env w (elems (Paths r)) p Hin Hp) as [e ->]. by eexists.
Qed.

Lemma ListDocs_stale_tagged_path_witness :
  RemoveDoc quiet "notes/a" two_docs = (Ok tt, snd (RemoveDoc quiet "notes/a" two_docs)) ∧
  ∃ e, ListDocs quiet intersect_paths (snd (RemoveDoc quiet "notes/a" two_docs)) "" ["todo"]
       = Err e.
Proof.
  split; [vm_compute; reflexivity |].
  apply (ListDocs_stale_tagged_path quiet intersect_paths
           (snd (RemoveDoc quiet "notes/a" two_docs)) "" "todo" "notes/a"
           (mkTag "todo" (Some ["notes/a"; "notes/b"])));
    [vm_compute; reflexivity | left | vm_compute; reflexivity].
Defined.

(** X17: a first tag whose record came back with a nil path list does not
    filter: [ListDocs] answers as if that tag had not been given, as long
    as other tags follow. *)
Theorem ListDocs_nil_first_tag
    (env : Env) (intersect : slice string → slice string → slice string) (w : World)
    (query t : string) (tags : list string) (r : Tag) :
  tags ≠ [] →
  fault env (OpGetItem TagT t) = None →
  tagTable w !! t = Some r → Paths r = None →
  ListDocs env intersect w query (t :: tags) = ListDocs env intersect w query tags.
Proof.
  intros Ht Hf Hr Hnil. unfold ListDocs.
  destruct (if decide (query ≠ "") then ti_Search env query else Ok [])
    as [found|e]; [| done].
  cbn [length]. destruct (decide (S (length tags) = 0)%nat); [done |].
  destruct (decide (length tags = 0%nat)) as [Hl|_]; [by destruct tags |].
  unfold listTaggedDocs. cbn [tagPaths]. unfold getItem_tag.
  by rewrite Hf, Hr, Hnil.
Qed.

Lemma ListDocs_nil_first_tag_witness :
  ListDocs quiet intersect_paths nil_tag "" ["draft"; "todo"]
  = Ok [mkDoc "notes/a" "" 5 5].
Proof.
  rewrite (ListDocs_nil_first_tag quiet intersect_paths nil_tag "" "draft" ["todo"]
             (mkTag "draft" None));
    try discriminate; vm_compute; reflexivity.
Defined.

(** X18: every document [ListDocs] returns, with or without query and
    tags, is a record of the document table; when no record carries
    content, no listed document does. *)
Theorem ListDocs_returns_records
    (env : Env) (intersect : slice string → slice string → slice string) (w : World)
    (query : string) (tags : list string) (docs : list Doc) :
  ListDocs env intersect w query tags = Ok docs →
  ∀ d, d ∈ docs →
       (∃ p, docTable w !! p = Some d) ∧ (docs_stripped w → Content d = "").
Proof.
  intros H d Hd.
  assert (Hrec : ∃ p, docTable w !! p = Some d).
  { revert H. unfold ListDocs.
    destruct (if decide (query ≠ "") then ti_Search env query else Ok [])
      as [found|e]; [| done].
    destruct (decide (length tags = 0%nat)).
    { intros H. destruct (listDocs_records _ _ _ _ H d Hd) as (p & _ & Hp). by exists p. }
    unfold listTaggedDocs.
    destruct (tagPaths env intersect w tags None) as [paths|e]; [| done].
    destruct (listDocs env w (elems paths)) as [tagged|e] eqn:Hl; [| done].
    assert (Htagged : ∀ d, d ∈ tagged → ∃ p, docTable w !! p = Some d).
    { intros d' Hd'. destruct (listDocs_records _ _ _ _ Hl d' Hd') as (p & _ & Hp).
      by exists p. }
    destruct (decide (query = "")); [intros [= <-]; by apply Htagged |].
    destruct (decide (0 < length found)%nat); intros [= <-]; [| by inversion Hd].
    apply list_elem_of_filter in Hd as [_ Hd]. by apply Htagged. }
  split; [done |]. intros Hw. destruct Hrec as [p Hp]. by apply (Hw p).
Qed.

Lemma ListDocs_returns_records_witness :
  ListDocs quiet intersect_paths two_docs "" ["todo"; "draft"] = Ok [mkDoc "notes/b" "" 6 6] ∧
  ∃ p, docTable two_docs !! p = Some (mkDoc "notes/b" "" 6 6).
Proof.
  split; [vm_compute; reflexivity |].
  apply (ListDocs_returns_records quiet intersect_paths two_docs "" ["todo"; "draft"]
           [mkDoc "notes/b" "" 6 6]);
    [vm_compute; reflexivity | left].
Defined.

(** *** Records under their own path *)

Lemma one_doc_keyed : docs_keyed one_doc.
Proof. intros p d H. cbn in H. by apply lookup_singleton_Some in H as [<- <-]. Qed.

(** X20: on a document table whose records sit under their own paths,
    [ListDocs] with a query and no tags returns one document per matched
    path, in the order of the matches: the paths of the result are the
    match list. *)
Theorem ListDocs_query_paths
    (env : Env) (intersect : slice string → slice string → slice string) (w : World)
    (query : string) (found : list string) (docs : list Doc) :
  docs_keyed w →
  query ≠ "" → ti_Search env query = Ok found →
  ListDocs env intersect w query [] = Ok docs →
  Path <$> docs = found.
Proof.
  intros Hw Hq Hs. unfold ListDocs.
  destruct (decide (query ≠ "")); [| done]. rewrite Hs. cbn [length].
  destruct (decide (0 = 0)%nat); [| done].
  intros H. apply listDocs_Ok in H as [_ H]. clear Hs.
  induction H as [|p d found docs Hp _ IH]; [done |].
  cbn. f_equal; [by apply Hw | done].
Qed.

Lemma ListDocs_query_paths_witness :
  Path <$> [mkDoc "notes/a" "" 5 5] = ["notes/a"].
Proof.
  apply (ListDocs_query_paths indexed intersect_paths one_doc "hello");
    [exact one_doc_keyed | discriminate | vm_compute; reflexivity
    | vm_compute; reflexivity].
Defined.

(** *** How the operations compose *)

(** X21: when the fetches of a tag are not refused, naming the tag twice
    in a row in one call of [TagDoc] is the same as naming it once: the
    second pass fetches the record the first one wrote and finds the
    path. *)
Theorem TagDoc_repeated_tag
    (env : Env) (path t : string) (rest : list string) (w : World) :
  tags_keyed w →
  fault env (OpGetItem TagT t) = None →
  TagDoc env path (t :: t :: rest) w = TagDoc env path (t :: rest) w.
Proof.
  intros Hk Hf. rewrite (TagDoc_cons env path t (t :: rest)).
  rewrite (TagDoc_cons env path t rest w).
  destruct (getItem_tag env w t) as [tag|e] eqn:Hget; [| done].
  pose proof Hget as Hget'. apply getItem_tag_Ok in Hget' as [_ Ht].
  destruct (contains (elems (Paths tag)) path) eqn:Hc.
  { done. }
  case_fault env OpMarshalMap; [done |].
  rewrite (tagged_name t path tag (Hk _ _ Ht)).
  case_fault env (OpPutItem TagT t); [done |].
  rewrite TagDoc_cons. unfold getItem_tag at 1. reduce_fields.
  rewrite Hf, lookup_insert_eq.
  assert (Hin : contains (elems (Paths (tagged t path tag))) path = true).
  { apply contains_true. cbn. apply elem_of_app. right. by apply list_elem_of_singleton. }
  by rewrite Hin.
Qed.

Lemma TagDoc_repeated_tag_witness :
  TagDoc quiet "notes/a" ["draft"; "draft"] two_docs
  = TagDoc quiet "notes/a" ["draft"] two_docs.
Proof.
  apply (TagDoc_repeated_tag quiet "notes/a" "draft" [] two_docs);
    [exact two_docs_keyed | reflexivity].
Defined.

(** X22: a successful [PutDoc] followed by a successful [RemoveDoc] of the
    same path leaves both stores without the path and otherwise as they
    were before the two calls. *)
Theorem PutDoc_then_RemoveDoc (env env' : Env) (doc : Doc) (w w' w'' : World) :
  PutDoc env doc w = (Ok tt, w') →
  RemoveDoc env' (Path doc) w' = (Ok tt, w'') →
  docTable w'' = delete (Path doc) (docTable w) ∧
  fs w'' = delete (Path doc) (fs w) ∧
  tagTable w'' = tagTable w.
Proof.
  intros Hput Hrm.
  destruct (PutDoc_Ok_inv _ _ _ _ Hput) as (_ & doc1 & w1 & _ & HD & HF & HT).
  revert Hrm. rewrite RemoveDoc_eq.
  destruct (fs_RemoveFile_cases env' (Path doc) w') as [[e ->] | [_ ->]]; [done |].
  case_fault env' OpMakeKey; [done |].
  case_fault env' (OpDeleteItem DocT (Path doc)); [done |].
  intros [= <-]. reduce_fields. rewrite HD, HF, HT.
  by rewrite !delete_insert_eq.
Qed.

Lemma PutDoc_then_RemoveDoc_witness :
  docTable (snd (RemoveDoc quiet "notes/a" (snd (PutDoc quiet note two_docs))))
  = delete "notes/a" (docTable two_docs) ∧
  fs (snd (RemoveDoc quiet "notes/a" (snd (PutDoc quiet note two_docs))))
  = delete "notes/a" (fs two_docs).
Proof.
  destruct (PutDoc_then_RemoveDoc quiet quiet note two_docs
              (snd (PutDoc quiet note two_docs))
              (snd (RemoveDoc quiet "notes/a" (snd (PutDoc quiet note two_docs)))))
    as (H1 & H2 & _); try (vm_compute; reflexivity).
  split; [exact H1 | exact H2].
Defined.

(** ** Properties of the HTTP server *)

(** X23: [CheckHandlers] returns no error exactly when the three stores are
    set and at least one authenticator is registered. So a server with its
    stores passes after one [AddAuth], and a server fresh from [NewServer]
    fails with "no UserStore set" however many authenticators are added. *)
Theorem CheckHandlers_passes (s : Server) :
  (CheckHandlers s = Ok tt ↔
   UserStore s ≠ None ∧ GroupStore s ≠ None ∧ PolicyStore s ≠ None ∧
   authenticators s ≠ ∅) ∧
  (∀ name auth,
      UserStore s ≠ None → GroupStore s ≠ None → PolicyStore s ≠ None →
      CheckHandlers (AddAuth name auth s) = Ok tt) ∧
  (∀ h p (auths : list (string * Authenticator)),
      CheckHandlers (foldr (λ na, AddAuth na.1 na.2) (NewServer h p) auths)
      = Err (ErrNew "no UserStore set")).
Proof.
  assert (Hiff : ∀ s, CheckHandlers s = Ok tt ↔
                      UserStore s ≠ None ∧ GroupStore s ≠ None ∧ PolicyStore s ≠ None ∧
                      authenticators s ≠ ∅).
  { intros s'. unfold CheckHandlers.
    destruct (decide (UserStore s' = None)); [split; [done | by intros (? & _)] |].
    destruct (decide (GroupStore s' = None)); [split; [done | by intros (_ & ? & _)] |].
    destruct (decide (PolicyStore s' = None)); [split; [done | by intros (_ & _ & ? & _)] |].
    destruct (decide (size (authenticators s') = 0%nat)) as [Hz|Hnz].
    - apply map_size_empty_iff in Hz. split; [done | by intros (_ & _ & _ & ?)].
    - split; [| done]. intros _. repeat split; try done.
      intros Hempty. apply Hnz. by apply map_size_empty_iff. }
  split; [apply Hiff |]. split.
  - intros name auth HU HG HP. apply Hiff. repeat split; try done.
    cbn. apply insert_non_empty.
  - intros h p auths.
    assert (HU : UserStore (foldr (λ na, AddAuth na.1 na.2) (NewServer h p) auths) = None).
    { induction auths as [|na auths IH]; [done | exact IH]. }
    unfold CheckHandlers. rewrite HU. by destruct (decide (@None string = None)).
Qed.

Lemma CheckHandlers_passes_witness :
  CheckHandlers password_server = Ok tt.
Proof.
  destruct (CheckHandlers_passes password_server) as [[_ Hpass] _].
  apply Hpass. repeat split; discriminate.
Defined.

(** X24: neither login handler calls [http.SetCookie] unless the
    authenticator of the provider accepted the credentials of the request;
    the [http.Cookie] value it then passes has the name "session", the ID
    of the returned user in its [Value] field, the path "/" and [HttpOnly]
    set. What net/http writes to the header from that value is not part of
    the statement. *)
Theorem session_cookie_needs_authentication (s : Server) (c : Cookie) :
  (∀ body effects,
      handleLogin s body = Returns effects → SetCookie c ∈ effects →
      ∃ login auth user,
        body = Ok login ∧
        authenticators s !! (if decide (Email login = "") then "google" else "basic")
        = Some auth ∧
        auth (Email login) (Token login) = Ok user ∧
        c = mkCookie "session" (ID user) "/" true) ∧
  (∀ provider code effects,
      handleOauth s provider code = Returns effects → SetCookie c ∈ effects →
      ∃ auth user,
        authenticators s !! provider = Some auth ∧
        auth "" code = Ok user ∧
        c = mkCookie "session" (ID user) "/" true).
Proof.
  split.
  - intros body effects. unfold handleLogin. destruct body as [login|e].
    2: { intros [= <-] Hin. apply list_elem_of_singleton in Hin. discriminate Hin. }
    destruct (authenticators s !! _) as [auth|] eqn:Ha; [| done].
    destruct (auth (Email login) (Token login)) as [user|e] eqn:Hu.
    + intros [= <-] Hin. exists login, auth, user. repeat split; try done.
      apply elem_of_cons in Hin as [[= ->] | Hin]; [done |].
      apply list_elem_of_singleton in Hin. discriminate Hin.
    + intros [= <-] Hin. apply list_elem_of_singleton in Hin. discriminate Hin.
  - intros provider code effects. unfold handleOauth.
    destruct (authenticators s !! provider) as [auth|] eqn:Ha; [| done].
    destruct (auth "" code) as [user|e] eqn:Hu.
    + intros [= <-] Hin. exists auth, user. repeat split; try done.
      apply elem_of_cons in Hin as [[= ->] | Hin]; [done |].
      apply list_elem_of_singleton in Hin. discriminate Hin.
    + intros [= <-] Hin. apply list_elem_of_singleton in Hin. discriminate Hin.
Qed.

Lemma session_cookie_needs_authentication_witness :
  ∃ login auth user,
    @Ok User (mkUser "" "ada@example.org" "s3cret") = Ok login ∧
    authenticators password_server !! (if decide (Email login = "") then "google" else "basic")
    = Some auth ∧
    auth (Email login) (Token login) = Ok user ∧
    identity "u1" = mkCookie "session" (ID user) "/" true.
Proof.
  apply (session_cookie_needs_authentication password_server (identity "u1"))
    with (effects := [SetCookie (identity "u1"); noContent]).
  - vm_compute. reflexivity.
  - left.
Defined.

(** X25: [handleLogin] panics exactly when the body decodes and no
    authenticator is registered for the provider it picks ("google" for an
    empty email, "basic" otherwise); and for every server there is a
    provider name on which [handleOauth] panics, whatever [CheckHandlers]
    said. *)
Theorem handlers_panic_without_authenticator (s : Server) :
  (∀ body,
      handleLogin s body = Panics ↔
      ∃ login, body = Ok login ∧
               authenticators s !! (if decide (Email login = "") then "google" else "basic")
               = None) ∧
  (∃ provider, ∀ code, handleOauth s provider code = Panics).
Proof.
  split.
  - intros body. unfold handleLogin. destruct body as [login|e].
    2: { split; [done | by intros (login & ? & _)]. }
    destruct (authenticators s !! _) as [auth|] eqn:Ha.
    + destruct (auth (Email login) (Token login));
        (split; [done |]; intros (login' & [= <-] & Hn);
         unfold Authenticator in *; congruence).
    + split; [| done]. intros _. by exists login.
  - destruct (exist_fresh (dom (authenticators s))) as [provider Hfresh].
    exists provider. intros code. unfold handleOauth.
    apply not_elem_of_dom in Hfresh. unfold Authenticator in *. by rewrite Hfresh.
Qed.

Lemma handlers_panic_without_authenticator_witness :
  CheckHandlers password_server = Ok tt ∧
  handleLogin password_server (Ok (mkUser "" "" "token-from-google")) = Panics.
Proof.
  split; [vm_compute; reflexivity |].
  apply (handlers_panic_without_authenticator password_server).
  eexists. split; [reflexivity | vm_compute; reflexivity].
Defined.

(** X26: [AddAuth] registers the authenticator for its name and for no
    other: [handleOauth] for that name then runs it, a later [AddAuth] of
    the same name replaces it, and requests for other providers are
    answered as before. *)
Theorem AddAuth_registers (name : string) (auth : Authenticator) (s : Server) :
  (∀ code,
      handleOauth (AddAuth name auth s) name code =
      match auth "" code with
      | Err _ => Returns [serverError "authentication failed"]
      | Ok user => Returns [SetCookie (identity (ID user)); redirect "http://localhost:9001"]
      end) ∧
  (∀ auth' code,
      handleOauth (AddAuth name auth (AddAuth name auth' s)) name code =
      handleOauth (AddAuth name auth s) name code) ∧
  (∀ provider code,
      provider ≠ name →
      handleOauth (AddAuth name auth s) provider code = handleOauth s provider code).
Proof.
  repeat split.
  - intros code. unfold handleOauth, AddAuth. cbn. by rewrite lookup_insert_eq.
  - intros auth' code. unfold handleOauth, AddAuth. cbn. by rewrite insert_insert_eq.
  - intros provider code Hne. unfold handleOauth, AddAuth. cbn.
    by rewrite lookup_insert_ne.
Qed.

Lemma AddAuth_registers_witness :
  handleOauth (AddAuth "google" passwords password_server) "basic" "code"
  = handleOauth password_server "basic" "code".
Proof.
  apply (AddAuth_registers "google" passwords password_server). discriminate.
Defined.
